(** * GrAPES AMR clean-up scripts: a shallow embedding and its properties

    Embedded sources:
    - [scripts/process_amr.py]: [clean_amr], [remove_duplicate_triples],
      [validate_amr], [process_csv];
    - [scripts/amr_validation.py]: [analyze_amr_file];
    - [amrbank_analysis/reentrancies.py]: [get_amr_string],
      [check_brackets_and_raise_exception_if_fail], [load].

    A Python [str] is a list of characters; a character is a code point
    below 256 ([ascii]), and the character classes of [str.strip] and of
    the [re] module are Python's Unicode classes restricted to that range.
    The parsers of the [penman] and [amr_utils] packages are not part of
    the repository: they are parameters of the functions that call them,
    and so is what [analyze_amr_file] can read of a decoded graph: whether
    its triples can be iterated over, and whether the fields of a triple
    can be read by name. *)

From Stdlib Require Import Ascii String ZArith Lia.
From stdpp Require Import base list strings gmap sorting.

#[local] Set Warnings "-register-all".

Local Open Scope char_scope.
Local Open Scope list_scope.

(** ** Python strings *)

Abbreviation str := (list ascii).

Definition py (s : string) : str := list_ascii_of_string s.

Definition ord (c : ascii) : N := N_of_ascii c.

Definition in_range (lo hi : N) (c : ascii) : bool :=
  ((lo <=? ord c) && (ord c <=? hi))%N.

(** [str.isspace] on one character, which is also the class [\s] of [re]:
    TAB..CR, FS..US, SPACE, NEL and NBSP. *)
Definition is_space (c : ascii) : bool :=
  in_range 9 13 c || in_range 28 31 c || in_range 32 32 c
  || in_range 133 133 c || in_range 160 160 c.

(** The class [[a-z0-9]]. *)
Definition is_lower_digit (c : ascii) : bool :=
  in_range 97 122 c || in_range 48 57 c.

(** The class [\w]: alphanumeric characters and the underscore. *)
Definition is_word (c : ascii) : bool :=
  in_range 48 57 c || in_range 65 90 c || in_range 97 122 c
  || in_range 95 95 c
  || in_range 170 170 c || in_range 178 179 c || in_range 181 181 c
  || in_range 185 186 c || in_range 188 190 c
  || in_range 192 214 c || in_range 216 246 c || in_range 248 255 c.

(** The class [[\w-]]. *)
Definition is_role_char (c : ascii) : bool := is_word c || Ascii.eqb c "-".

(** The class [[^)]]. *)
Definition not_rparen (c : ascii) : bool := negb (Ascii.eqb c ")").

(** The class [[^\s/]]. *)
Definition not_space_slash (c : ascii) : bool :=
  negb (is_space c || Ascii.eqb c "/").

Definition nl : ascii := "010".

(** [s.split(sep)] for a one-character separator. *)
Fixpoint split (sep : ascii) (s : str) : list str :=
  match s with
  | [] => [[]]
  | c :: s' =>
      if Ascii.eqb c sep then [] :: split sep s'
      else match split sep s' with
           | l :: ls => (c :: l) :: ls
           | [] => [[c]]
           end
  end.

(** [sep.join(ls)] for a one-character separator. *)
Fixpoint join (sep : ascii) (ls : list str) : str :=
  match ls with
  | [] => []
  | [l] => l
  | l :: ls' => l ++ sep :: join sep ls'
  end.

Fixpoint lstrip (s : str) : str :=
  match s with
  | c :: s' => if is_space c then lstrip s' else s
  | [] => []
  end.

Definition rstrip (s : str) : str := rev (lstrip (rev s)).

(** [s.strip()] *)
Definition strip (s : str) : str := rstrip (lstrip s).

(** [s.startswith(p)] *)
Fixpoint startswith (p s : str) : bool :=
  match p, s with
  | [], _ => true
  | a :: p', b :: s' => Ascii.eqb a b && startswith p' s'
  | _ :: _, [] => false
  end.

(** [c in s] for a one-character [c]. *)
Definition contains (c : ascii) (s : str) : bool :=
  existsb (Ascii.eqb c) s.

(** [s.split(sep, 1)] on a string that contains [sep]: the text before the
    first [sep] and the text after it. *)
Fixpoint split_once (sep : ascii) (s : str) : str * str :=
  match s with
  | [] => ([], [])
  | c :: s' =>
      if Ascii.eqb c sep then ([], s')
      else let '(a, b) := split_once sep s' in (c :: a, b)
  end.

(** [s.replace(a, b)] for one-character [a] and [b]. *)
Definition replace (a b : ascii) (s : str) : str :=
  map (fun c => if Ascii.eqb c a then b else c) s.

(** [s.count(c)] for a one-character [c]. *)
Definition count (c : ascii) (s : str) : Z :=
  Z.of_nat (length (filter (fun x => x = c) s)).

(** [c * n] for a one-character [c]: empty when [n] is not positive. *)
Definition times (c : ascii) (n : Z) : str := repeat c (Z.to_nat n).

(** ** The fragment of [re] used by the scripts

    A pattern is a backtracking matcher in continuation style: it receives
    the text matched so far and the remaining input, and passes both on to
    the rest of the pattern; [None] makes the caller try its next
    alternative. *)

Section Regex.
Context {R : Type}.

Definition cont := str -> str -> option R.

(** One literal character. *)
Definition lit (c : ascii) (k : cont) : cont := fun acc s =>
  match s with
  | x :: s' => if Ascii.eqb x c then k (acc ++ [x]) s' else None
  | [] => None
  end.

(** [X+] for a character class: greedy, giving back one character at a
    time when the rest of the pattern fails. *)
Fixpoint plus (p : ascii -> bool) (k : cont) (acc s : str) : option R :=
  match s with
  | x :: s' =>
      if p x then
        match plus p k (acc ++ [x]) s' with
        | Some r => Some r
        | None => k (acc ++ [x]) s'
        end
      else None
  | [] => None
  end.

(** [a|b]: the left branch first. *)
Definition alt (a b : cont -> cont) (k : cont) : cont := fun acc s =>
  match a k acc s with
  | Some r => Some r
  | None => b k acc s
  end.

(** [$] without [re.MULTILINE]: the end of the string, or just before a
    newline that ends the string. *)
Definition dollar (k : cont) : cont := fun acc s =>
  match s with
  | [] => k acc s
  | [x] => if Ascii.eqb x nl then k acc s else None
  | _ => None
  end.

(** [(?=X)] for a character class. *)
Definition lookahead (p : ascii -> bool) (k : cont) : cont := fun acc s =>
  match s with
  | x :: _ => if p x then k acc s else None
  | [] => None
  end.
End Regex.

(** [re.sub] for a pattern that never matches the empty string: [m s] is
    the match of the pattern at the start of [s], as the replacement text
    and the input left after the match.  The search resumes after each
    match and moves one character forward where there is none.  The fuel
    bounds the number of steps by the length of the input. *)
Fixpoint re_sub_fuel (m : str -> option (str * str)) (fuel : nat) (s : str)
  : str :=
  match fuel with
  | O => s
  | S fuel' =>
      match m s with
      | Some (repl, rest) => repl ++ re_sub_fuel m fuel' rest
      | None =>
          match s with
          | [] => []
          | c :: s' => c :: re_sub_fuel m fuel' s'
          end
      end
  end.

Definition re_sub (m : str -> option (str * str)) (s : str) : str :=
  re_sub_fuel m (S (length s)) s.

(** ** [clean_amr] *)

(** The pattern [(:[\w-]+)(?=[^\s/])]: group 1 and the input after it. *)
Definition role_re (s : str) : option (str * str) :=
  lit ":" (plus is_role_char
    (lookahead not_space_slash (fun g1 rest => Some (g1, rest)))) [] s.

(** The match of the pattern as [re.sub] uses it with the replacement
    [\1 ] (group 1 and a space). *)
Definition role_match (s : str) : option (str * str) :=
  match role_re s with
  | Some (g1, rest) => Some (g1 ++ [" "], rest)
  | None => None
  end.

(** [re.sub(r"(:[\w-]+)(?=[^\s/])", r"\1 ", line)] *)
Definition space_after_roles (line : str) : str :=
  re_sub role_match line.

(** Lines 32-35: the multi-word node name fix. *)
Definition fix_node_name (line : str) : str :=
  if startswith ["("] line && contains "/" line then
    let '(parts0, parts1) := split_once "/" line in
    let node_name := replace " " "_" (strip parts1) in
    parts0 ++ "/" :: node_name
  else line.

(** The body of the loop over the lines (lines 31-40). *)
Definition normalize_line (line : str) : str :=
  space_after_roles (fix_node_name line).

(** The pattern [(\([a-z0-9]+\s+/[^)]+)(\n|$)]: group 1, group 2 and the
    input after the match. *)
Definition node_open_re (s : str) : option (str * str * str) :=
  lit "(" (plus is_lower_digit (plus is_space (lit "/" (plus not_rparen
    (fun g1 r1 =>
       alt (lit nl) dollar (fun g2 r2 => Some (g1, g2, r2)) [] r1)))))
    [] s.

(** The match of the pattern as [re.sub] uses it with the replacement
    [\1)\2]. *)
Definition closer_match (s : str) : option (str * str) :=
  match node_open_re s with
  | Some (g1, g2, rest) => Some (g1 ++ ")" :: g2, rest)
  | None => None
  end.

(** Line 46: [re.sub(r"(\([a-z0-9]+\s+/[^)]+)(\n|$)", r"\1)\2", cleaned)] *)
Definition insert_closers (cleaned : str) : str :=
  re_sub closer_match cleaned.

(** One iteration of the loop of lines 51-60 on the pair [(stack, fixed)]. *)
Definition scrub_step (st : list ascii * str) (char : ascii)
  : list ascii * str :=
  let '(stack, fixed) := st in
  if Ascii.eqb char "(" then (stack ++ [char], fixed ++ [char])
  else if Ascii.eqb char ")" then
    match stack with
    | [] => (stack, fixed)
    | _ :: _ => (removelast stack, fixed ++ [char])
    end
  else (stack, fixed ++ [char]).

(** Lines 49-63: the scrub pass and the closers appended at the end. *)
Definition scrub (cleaned : str) : str :=
  let '(stack, fixed) := fold_left scrub_step cleaned ([], []) in
  fixed ++ times ")" (Z.of_nat (length stack)).

(** Lines 45-63: the two passes in sequence. *)
Definition bracket_balancer (cleaned : str) : str :=
  scrub (insert_closers cleaned).

Definition clean_amr (amr_str : str) : str :=
  let lines :=
    map strip (filter (fun line => strip line <> []) (split nl amr_str)) in
  let lines :=
    match lines with
    | l0 :: rest => if startswith (py "# ::snt") l0 then rest else lines
    | [] => lines
    end in
  let cleaned_lines := map normalize_line lines in
  bracket_balancer (join nl cleaned_lines).

(** ** Exceptions

    A call either returns a value or raises.  [DecodeError] is
    [penman.DecodeError]; [OtherException] stands for every other subclass
    of [Exception] (the [Exception] raised by
    [check_brackets_and_raise_exception_if_fail], a [KeyError], ...). *)

Inductive exn : Type :=
  | DecodeError
  | OtherException.

Inductive res (A : Type) : Type :=
  | Ret (a : A)
  | Raise (e : exn).

Arguments Ret {A} a.
Arguments Raise {A} e.

Definition bind {A B : Type} (r : res A) (f : A -> res B) : res B :=
  match r with
  | Ret a => f a
  | Raise e => Raise e
  end.

(** [try: body / except ...]: the handler gives the result of the first
    [except] clause that matches the exception, or [None] when none does
    and the exception goes on to the caller. *)
Definition try_except {A : Type} (body : res A) (handler : exn -> option (res A))
  : res A :=
  match body with
  | Ret a => Ret a
  | Raise e =>
      match handler e with
      | Some r => r
      | None => Raise e
      end
  end.

(** A loop whose body may raise: the first exception ends the loop. *)
Fixpoint for_each {S A : Type} (body : S -> A -> res S) (items : list A)
  (st : S) : res S :=
  match items with
  | [] => Ret st
  | a :: items' => bind (body st a) (for_each body items')
  end.

(** ** Decoded graphs *)

(** A triple [(source, relation, target)]. *)
Abbreviation triple := (list ascii * list ascii * list ascii)%type.

(** What the scripts read of a [penman.Graph]. *)
Record graph : Type := { triples : list triple }.

(** ** [remove_duplicate_triples] *)

(** The test of line 76: a blank line or a comment line. *)
Definition passes_through (line : str) : bool :=
  bool_decide (strip line = []) || startswith ["#"] (strip line).

(** One iteration of the loop of lines 74-86 on
    [(seen, cleaned_lines, duplicates_removed)]. *)
Definition dedup_step (st : gset (list ascii) * list str * Z) (line : str)
  : gset (list ascii) * list str * Z :=
  let '(seen, cleaned_lines, duplicates_removed) := st in
  let stripped := strip line in
  if passes_through line then
    (seen, cleaned_lines ++ [line], duplicates_removed)
  else if bool_decide (stripped ∈ seen) then
    (seen, cleaned_lines, (duplicates_removed + 1)%Z)
  else
    ({[stripped]} ∪ seen, cleaned_lines ++ [line], duplicates_removed).

Definition remove_duplicate_triples (amr_str : str) : str * Z :=
  let '(_, cleaned_lines, duplicates_removed) :=
    fold_left dedup_step (split nl amr_str) (∅, [], 0%Z) in
  (join nl cleaned_lines, duplicates_removed).

(** ** [validate_amr] *)

(** The dummy AMR of lines 104 and 106. *)
Definition sentinel : str := py "(g / gggggg)".

(** Line 99: the text with the missing closers appended. *)
Definition count_fixed (amr_str : str) : str :=
  amr_str ++ times ")" (count "(" amr_str - count ")" amr_str).

Section Validate.
Variable decode : str -> res graph.

Definition validate_amr (amr_str : str) : res (bool * str) :=
  try_except
    (bind (decode amr_str) (fun _ => Ret (true, amr_str)))
    (fun e =>
       match e with
       | DecodeError =>
           Some (try_except
                   (let fixed := count_fixed amr_str in
                    bind (decode fixed) (fun _ => Ret (true, fixed)))
                   (fun _ => Some (Ret (false, sentinel))))
       | OtherException => Some (Ret (false, sentinel))
       end).
End Validate.

(** ** [process_csv] *)

(** The Python values that line 150 tests for truth. *)
Inductive value : Type :=
  | VBool (b : bool)
  | VStr (s : str)
  | VTuple (items : list value).

Definition truthy (v : value) : bool :=
  match v with
  | VBool b => b
  | VStr s => negb (bool_decide (s = []))
  | VTuple items => negb (bool_decide (items = []))
  end.

(** The tuple that [validate_amr] returns. *)
Definition validation_tuple (r : bool * str) : value :=
  VTuple [VBool (fst r); VStr (snd r)].

(** The counters of one column and the chunks written to its file. *)
Record column_state : Type := {
  valid_count : Z;
  invalid_count : Z;
  total_duplicates : Z;
  written : list str
}.

Definition column_start : column_state :=
  {| valid_count := 0; invalid_count := 0; total_duplicates := 0;
     written := [] |}.

Section ProcessCsv.
Variable decode : str -> res graph.

(** Lines 139-155 for one row; [amr] is [str(amr)]. *)
Definition process_row (st : column_state) (amr : str) : res column_state :=
  let cleaned := clean_amr amr in
  let '(cleaned, duplicates) := remove_duplicate_triples cleaned in
  let total_duplicates := (total_duplicates st + duplicates)%Z in
  bind (validate_amr decode cleaned) (fun is_valid =>
    if truthy (validation_tuple is_valid) then
      Ret {| valid_count := valid_count st + 1;
             invalid_count := invalid_count st;
             total_duplicates := total_duplicates;
             written := written st ++ [cleaned ++ [nl; nl]] |}
    else
      Ret {| valid_count := valid_count st;
             invalid_count := invalid_count st + 1;
             total_duplicates := total_duplicates;
             written := written st
                          ++ [py "# INVALID AMR" ++ nl :: cleaned ++ [nl; nl]] |}).

(** Lines 132-155: the loop over the rows of one column. *)
Definition process_column (rows : list str) : res column_state :=
  for_each process_row rows column_start.
End ProcessCsv.

(** ** [analyze_amr_file] *)

(** [s.split('\n\n')] *)
Fixpoint split_blank (s : str) : list str :=
  match s with
  | [] => [[]]
  | c :: s' =>
      let keep :=
        match split_blank s' with
        | l :: ls => (c :: l) :: ls
        | [] => [[c]]
        end in
      if Ascii.eqb c nl then
        match s' with
        | c' :: s'' => if Ascii.eqb c' nl then [] :: split_blank s'' else keep
        | [] => keep
        end
      else keep
  end.

(** One iteration of the loop of lines 38-42 on [(seen, duplicates)];
    [duplicates] is a [defaultdict(int)]. *)
Definition track_step (st : gset triple * gmap triple Z) (t : triple)
  : gset triple * gmap triple Z :=
  let '(seen, duplicates) := st in
  let key := t in
  let duplicates :=
    if bool_decide (key ∈ seen)
    then <[key := (default 0 (duplicates !! key) + 1)%Z]> duplicates
    else duplicates in
  ({[key]} ∪ seen, duplicates).

Record analysis_state : Type := {
  valid : Z;
  duplicates : gmap triple Z;
  error_lines : list Z
}.

Definition analysis_start : analysis_state :=
  {| valid := 0; duplicates := ∅; error_lines := [] |}.

Section Analyze.
(** [penman.decode]. *)
Variable decode : str -> res graph.
(** [for t in graph.triples]: the exception that starting the iteration
    raises, if any (a [TypeError] where [graph.triples] is a method). *)
Variable iter_error : graph -> option exn.
(** [(t.source, t.relation, t.target)]: the exception that reading the
    fields of a triple raises, if any (an [AttributeError] where the
    triples are plain tuples); where it raises none, the key is the
    triple. *)
Variable read_error : triple -> option exn.

(** Lines 38-42: the loop over the triples on [(seen, duplicates)], up to
    the first triple whose fields cannot be read.  [duplicates] is
    updated in place: it keeps what was counted before an exception. *)
Fixpoint track_loop (ts : list triple) (st : gset triple * gmap triple Z)
  : gmap triple Z * option exn :=
  match ts with
  | [] => (snd st, None)
  | t :: ts' =>
      match read_error t with
      | Some e => (snd st, Some e)
      | None => track_loop ts' (track_step st t)
      end
  end.

(** Lines 29-44 for the item of index [idx].  The [try] covers the
    decoding, [valid += 1] and the loop over the triples; [seen] starts
    empty for every graph. *)
Definition analyze_item (st : analysis_state) (idx : Z) (amr_str : str)
  : analysis_state :=
  let amr_str := strip amr_str in
  if bool_decide (amr_str = []) then st
  else
    match decode amr_str with
    | Raise _ =>
        {| valid := valid st;
           duplicates := duplicates st;
           error_lines := error_lines st ++ [(idx + 1)%Z] |}
    | Ret g =>
        let valid1 := (valid st + 1)%Z in
        match iter_error g with
        | Some _ =>
            {| valid := valid1;
               duplicates := duplicates st;
               error_lines := error_lines st ++ [(idx + 1)%Z] |}
        | None =>
            let '(duplicates1, raised) :=
              track_loop (triples g) (∅, duplicates st) in
            {| valid := valid1;
               duplicates := duplicates1;
               error_lines :=
                 match raised with
                 | Some _ => error_lines st ++ [(idx + 1)%Z]
                 | None => error_lines st
                 end |}
        end
    end.

(** Line 28: [for idx, amr_str in enumerate(content)]. *)
Fixpoint analyze_loop (idx : Z) (content : list str) (st : analysis_state)
  : analysis_state :=
  match content with
  | [] => st
  | amr_str :: content' =>
      analyze_loop (idx + 1) content' (analyze_item st idx amr_str)
  end.

(** Line 47: [sum(1 for v in duplicates.values() if v > 1)]. *)
Definition cross_duplicates (st : analysis_state) : Z :=
  Z.of_nat (length (filter (fun kv => (1 < snd kv)%Z)
                           (map_to_list (duplicates st)))).

(** [analyze_amr_file] on the text of the file. *)
Definition analyze_amr_file (text : str) : Z * Z * Z * list Z :=
  let content := split_blank text in
  let total := Z.of_nat (length content) in
  let st := analyze_loop 0 content analysis_start in
  (total, valid st, cross_duplicates st, error_lines st).
End Analyze.

(** ** [reentrancies.load] *)

(** [s.endswith(p)] *)
Definition endswith (p s : str) : bool := startswith (rev p) (rev s).

(** [enumerate(l)] *)
Definition enumerate {A : Type} (l : list A) : list (nat * A) :=
  combine (seq 0 (length l)) l.

(** [s.replace(c, '')] for a one-character [c]. *)
Definition remove_char (c : ascii) (s : str) : str :=
  List.filter (fun x => negb (Ascii.eqb x c)) s.

(** The pattern [ +] as [re.sub] uses it with the replacement [' ']. *)
Definition spaces_match (s : str) : option (str * str) :=
  plus (Ascii.eqb " ") (fun _ rest => Some ([" "], rest)) [] s.

Definition check_brackets_and_raise_exception_if_fail (amr_string : str)
  : res unit :=
  if negb (startswith ["("] amr_string) || negb (endswith [")"] amr_string)
  then Raise OtherException
  else Ret tt.

Definition get_amr_string (no_tokens : bool) (sent : str) : str :=
  let amr_string_lines :=
    map snd
      (List.filter
         (fun il => negb (startswith ["#"] (strip (snd il)))
                    && (Nat.ltb 0 (fst il) || no_tokens))
         (enumerate (split nl sent))) in
  let amr_string := strip (concat amr_string_lines) in
  re_sub spaces_match amr_string.

(** One iteration of the loop of [get_reentrant_triples] on
    [(node_labels, reentrant_triples)]. *)
Definition reentrant_step (st : gset (list ascii) * list triple) (t : triple)
  : gset (list ascii) * list triple :=
  let '(node_labels, reentrant_triples) := st in
  let '(s, r, tg) := t in
  if bool_decide (r = py ":instance") then
    ({[s]} ∪ node_labels, reentrant_triples)
  else if bool_decide (tg ∈ node_labels) then
    (node_labels, reentrant_triples ++ [t])
  else st.

Section Load.
(** [Matedata_Parser.readlines], [penman.decode] with the tree model, and
    [penman.decode]. *)
Variable readlines : str -> res (gmap (list ascii) (list ascii)).
Variable decode_tree : str -> res graph.
Variable decode : str -> res graph.

Definition get_metadata (no_tokens : bool) (sent : str)
  : res (gmap (list ascii) (list ascii)) :=
  let prefix_lines :=
    map snd
      (List.filter
         (fun il => startswith ["#"] (strip (snd il))
                    || (Nat.eqb (fst il) 0 && negb no_tokens))
         (enumerate (split nl sent))) in
  readlines (join nl prefix_lines).

Definition get_reentrant_triples (amr_string : str) : res (list triple) :=
  bind (decode_tree amr_string) (fun g =>
    Ret (snd (fold_left reentrant_step (triples g) (∅, [])))).

(** [metadata['id']] *)
Definition metadata_id (metadata : gmap (list ascii) (list ascii))
  : res (list ascii) :=
  match metadata !! py "id" with
  | Some i => Ret i
  | None => Raise OtherException
  end.

(** Lines 51-61: the body of the loop over the blocks of the file, on
    [(amrs, graph_id2_reentrant_triples)]. *)
Definition load_step (no_tokens : bool)
  (st : list graph * gmap (list ascii) (list triple)) (sent : str)
  : res (list graph * gmap (list ascii) (list triple)) :=
  let '(amrs, graph_id2_reentrant_triples) := st in
  bind (get_metadata no_tokens sent) (fun metadata =>
    let amr_string := get_amr_string no_tokens sent in
    if bool_decide (amr_string = []) then Ret st
    else
      bind (check_brackets_and_raise_exception_if_fail amr_string) (fun _ =>
      bind (get_reentrant_triples amr_string) (fun reentrant_triples =>
      bind (metadata_id metadata) (fun id =>
      bind (decode sent) (fun amr =>
        Ret (amrs ++ [amr],
             <[id := reentrant_triples]> graph_id2_reentrant_triples)))))).

(** [load] on the text of the file. *)
Definition load (text : str)
  : res (list graph * gmap (list ascii) (list triple)) :=
  let sents := split_blank (remove_char "013" text) in
  let no_tokens :=
    forallb (fun sent => startswith ["("] (strip sent)) sents in
  for_each (load_step no_tokens) sents ([], ∅).
End Load.

(** ** [get_unseen_names_and_dates.py] *)

(** [a <= b] on strings: by code points, a prefix before its
    extensions. *)
Fixpoint str_le (a b : str) : bool :=
  match a, b with
  | [], _ => true
  | _ :: _, [] => false
  | x :: a', y :: b' =>
      if (ord x <? ord y)%N then true
      else if (ord y <? ord x)%N then false
      else str_le a' b'
  end.

(** [p <= q] on pairs of strings, as Python compares tuples: by the first
    components where they differ, else by the second ones. *)
Definition pair_le (p q : str * str) : bool :=
  if bool_decide (fst p = fst q) then str_le (snd p) (snd q)
  else str_le (fst p) (fst q).

Definition pair_leR (p q : str * str) : Prop := pair_le p q = true.

#[global] Instance pair_leR_dec : RelDecision pair_leR.
Proof. intros p q. unfold pair_leR. apply _. Defined.

(** [l.sort()] on a list of pairs of strings. *)
Definition sort_pairs (l : list (str * str)) : list (str * str) :=
  merge_sort pair_leR l.

(** The double quote character. *)
Definition dquote : ascii := "034".

Section NamesAndDates.
(** [graph.attributes(source=...)] of [penman.Graph]. *)
Variable attributes : graph -> list ascii -> list triple.

(** Lines 91-94 and 100-103: the pairs [(role, target)] of the attributes
    of the instance, sorted. *)
Definition sorted_attributes (g : graph) (instance : triple)
  : list (str * str) :=
  sort_pairs
    (map (fun attribute => (snd (fst attribute), snd attribute))
       (attributes g (fst (fst instance)))).

Definition get_name_string_for_name_instance (g : graph) (instance : triple)
  : str :=
  let name_dict := sorted_attributes g instance in
  remove_char dquote (join " " (map snd name_dict)).

Definition get_date_string_for_date_instance (g : graph) (instance : triple)
  : str :=
  let date_dict := sorted_attributes g instance in
  join " " (map (fun t => fst t ++ " " :: snd t) date_dict).

End NamesAndDates.

(** ** Sample parsers

    Parsers that accept every text, to run the loops on sample files. *)

Definition readlines_id (i : str) : str -> res (gmap (list ascii) (list ascii)) :=
  fun _ => Ret {[ py "id" := i ]}.

Definition decode_as (ts : list triple) : str -> res graph :=
  fun _ => Ret {| triples := ts |}.

(** A decoder that raises an exception other than [DecodeError] on every
    text. *)
Definition decode_crash : str -> res graph := fun _ => Raise OtherException.

(** ** [process_csv] as a whole and the script entry point *)

(** The frame that [pd.read_csv] returns: the column names and the rows;
    a row gives, for a column name, [str()] of its cell. *)
Record dataframe : Type := {
  df_columns : list (list ascii);
  df_rows : list (list ascii -> list ascii)
}.

(** The exceptions that leave [process_csv]: lines 118 and 130, the
    division of lines 169-170, and an exception of a row. *)
Inductive csv_error : Type :=
  | FileNotFoundError
  | ValueError (col : list ascii)
  | ZeroDivisionError
  | RowError (e : exn).

(** An entry of [results]. *)
Record column_stats : Type := {
  stat_total : Z;
  stat_valid : Z;
  stat_invalid : Z;
  stat_duplicates_removed : Z
}.

(** A loop whose body may raise, with the state that was reached when it
    did: what the file of a column holds when the [with] block is left. *)
Fixpoint run_rows {S A : Type} (body : S -> A -> res S) (items : list A)
  (st : S) : S * option exn :=
  match items with
  | [] => (st, None)
  | a :: items' =>
      match body st a with
      | Ret st' => run_rows body items' st'
      | Raise e => (st, Some e)
      end
  end.

(** Line 128. *)
Definition amr_columns : list (list ascii) :=
  [py "amr_graph"; py "generated_amr"].

(** Lines 165-171: the report raises at the first column without rows. *)
Fixpoint report (results : list (list ascii * column_stats))
  : option csv_error :=
  match results with
  | [] => None
  | (_, stats) :: results' =>
      if bool_decide (stat_total stats = 0%Z) then Some ZeroDivisionError
      else report results'
  end.

Section ProcessCsvWhole.
Variable decode : str -> res graph.

(** Lines 128-162: the loop over the columns, on the files written so far
    (by name, inside the output directory) and [results]. *)
Fixpoint process_columns (df : dataframe) (cols : list (list ascii))
  (files : gmap (list ascii) (list ascii))
  (results : list (list ascii * column_stats))
  : gmap (list ascii) (list ascii)
    * (csv_error + list (list ascii * column_stats)) :=
  match cols with
  | [] => (files, inr results)
  | col :: cols' =>
      if bool_decide (col ∈ df_columns df) then
        let '(st, raised) :=
          run_rows (process_row decode)
            (map (fun row => row col) (df_rows df)) column_start in
        let files := <[col ++ py ".txt" := concat (written st)]> files in
        match raised with
        | Some e => (files, inl (RowError e))
        | None =>
            process_columns df cols' files
              (results
               ++ [(col,
                    {| stat_total := Z.of_nat (length (df_rows df));
                       stat_valid := valid_count st;
                       stat_invalid := invalid_count st;
                       stat_duplicates_removed := total_duplicates st |})])
        end
      else (files, inl (ValueError col))
  end.

(** [process_csv]; the input is [None] when the path does not exist, and
    the frame that [pd.read_csv] returns otherwise ([os.makedirs] and
    [pd.read_csv] are taken to go through).  The result is the files
    written and either the exception raised or [results]. *)
Definition process_csv (input : option dataframe)
  : gmap (list ascii) (list ascii)
    * (csv_error + list (list ascii * column_stats)) :=
  match input with
  | None => (∅, inl FileNotFoundError)
  | Some df =>
      let '(files, r) := process_columns df amr_columns ∅ [] in
      match r with
      | inl e => (files, inl e)
      | inr results =>
          match report results with
          | Some e => (files, inl e)
          | None => (files, inr results)
          end
      end
  end.

(** Lines 193-198: the exit status of the script. *)
Definition main_exit_code (input : option dataframe) : Z :=
  match snd (process_csv input) with
  | inl _ => 1%Z
  | inr _ => 0%Z
  end.
End ProcessCsvWhole.

(** A frame with the given columns in which every cell of a row holds the
    same text. *)
Definition frame_of (columns : list (list ascii)) (cells : list str)
  : dataframe :=
  {| df_columns := columns; df_rows := map (fun cell _ => cell) cells |}.

(** A graph whose triples can be iterated over, and triples whose fields
    can be read; and triples that are plain tuples, on which reading
    [t.source] raises. *)
Definition no_error {A : Type} : A -> option exn := fun _ => None.

Definition attribute_error : triple -> option exn :=
  fun _ => Some OtherException.

(** ** Vocabulary of the properties *)

(** A match function for [re_sub] consumes input on every match. *)
Definition consuming (m : str -> option (str * str)) : Prop :=
  forall s repl rest, m s = Some (repl, rest) -> length rest < length s.

(** Openers minus closers. *)
Definition depth (s : str) : Z := count "(" s - count ")" s.

(** A text is balanced from depth [d] when the running depth, started at
    [d], never goes below zero and ends at zero. *)
Definition balanced_from (d : Z) (s : str) : Prop :=
  (forall n, 0 <= d + depth (take n s))%Z /\ (d + depth s = 0)%Z.

Definition balanced (s : str) : Prop := balanced_from 0 s.

(** The scrub pass as a recursion on the text, from a stack of [d]
    openers. *)
Fixpoint scrub_from (d : nat) (s : str) : str :=
  match s with
  | [] => repeat ")" d
  | c :: s' =>
      if Ascii.eqb c "(" then c :: scrub_from (S d) s'
      else if Ascii.eqb c ")" then
        match d with
        | O => scrub_from O s'
        | S d' => c :: scrub_from d' s'
        end
      else c :: scrub_from d s'
  end.

(** [closers_inserted s t]: the text [t] is the text [s] with closers put
    in, each of them right before a newline of [s] or at the end of [s]. *)
Inductive closers_inserted : str -> str -> Prop :=
  | ci_done : closers_inserted [] []
  | ci_at_end : closers_inserted [] [")"]
  | ci_before_newline s t :
      closers_inserted s t -> closers_inserted (nl :: s) (")" :: nl :: t)
  | ci_copy c s t :
      closers_inserted s t -> closers_inserted (c :: s) (c :: t).

(** [p in s] *)
Fixpoint has_infix (p s : str) : bool :=
  startswith p s
  || match s with
     | [] => false
     | _ :: s' => has_infix p s'
     end.


(** The lines that the loop of [remove_duplicate_triples] keeps and the
    number of lines it drops, from a set [seen]. *)
Fixpoint dedup_from (seen : gset (list ascii)) (lines : list str)
  : list str * Z :=
  match lines with
  | [] => ([], 0%Z)
  | line :: rest =>
      if passes_through line then
        let '(kept, n) := dedup_from seen rest in (line :: kept, n)
      else if bool_decide (strip line ∈ seen) then
        let '(kept, n) := dedup_from seen rest in (kept, (n + 1)%Z)
      else
        let '(kept, n) := dedup_from ({[strip line]} ∪ seen) rest in
        (line :: kept, n)
  end.

(** A line that is neither blank nor a comment. *)
Definition is_triple_line (line : str) : bool := negb (passes_through line).

(** The number of occurrences of the key [k] among the triples [ts]. *)
Definition occurrences (k : triple) (ts : list triple) : Z :=
  Z.of_nat (length (filter (fun t => t = k) ts)).

(** The occurrences of [k] in one graph after its first one there. *)
Definition repeats (k : triple) (ts : list triple) : Z :=
  Z.max 0 (occurrences k ts - 1).

(** The keys that line 47 counts. *)
Definition contributing_keys (st : analysis_state) : list triple :=
  (filter (fun kv => (1 < snd kv)%Z) (map_to_list (duplicates st))).*1.

Section AnalyzeVocabulary.
Variable decode : str -> res graph.
Variable iter_error : graph -> option exn.
Variable read_error : triple -> option exn.

(** The triples before the first one whose fields cannot be read. *)
Fixpoint readable_prefix (ts : list triple) : list triple :=
  match ts with
  | [] => []
  | t :: ts' =>
      match read_error t with
      | Some _ => []
      | None => t :: readable_prefix ts'
      end
  end.

(** The triples of a graph that the loop of lines 38-42 gets through. *)
Definition processed_triples (g : graph) : list triple :=
  match iter_error g with
  | Some _ => []
  | None => readable_prefix (triples g)
  end.

(** Whether the [try] raises after the graph has been decoded. *)
Definition raises_after_decode (g : graph) : bool :=
  match iter_error g with
  | Some _ => true
  | None =>
      existsb (fun t => match read_error t with
                        | Some _ => true
                        | None => false
                        end) (triples g)
  end.

(** The repeats of [k] among the triples that the loop gets through in
    the graph of one item of the file; an item that is blank or does not
    decode has none. *)
Definition item_repeats (k : triple) (amr_str : str) : Z :=
  if bool_decide (strip amr_str = []) then 0%Z
  else
    match decode (strip amr_str) with
    | Ret g => repeats k (processed_triples g)
    | Raise _ => 0%Z
    end.

(** The repeats of [k] inside one graph, summed over the graphs. *)
Definition total_repeats (k : triple) (content : list str) : Z :=
  foldr Z.add 0%Z (map (item_repeats k) content).

(** A non-blank item that decodes. *)
Definition item_decodes (amr_str : str) : bool :=
  negb (bool_decide (strip amr_str = []))
  && match decode (strip amr_str) with
     | Ret _ => true
     | Raise _ => false
     end.

(** A non-blank item on which the decoder raises. *)
Definition item_rejected (amr_str : str) : bool :=
  negb (bool_decide (strip amr_str = []))
  && match decode (strip amr_str) with
     | Ret _ => false
     | Raise _ => true
     end.

(** A non-blank item for which something inside the [try] raises: the
    decoder, the iteration over the triples, or the reading of a
    triple. *)
Definition item_fails (amr_str : str) : bool :=
  negb (bool_decide (strip amr_str = []))
  && match decode (strip amr_str) with
     | Ret g => raises_after_decode g
     | Raise _ => true
     end.

(** The 1-based positions of the failing items, counting from [idx]. *)
Fixpoint failed_items (idx : Z) (content : list str) : list Z :=
  match content with
  | [] => []
  | amr_str :: content' =>
      (if item_fails amr_str then [(idx + 1)%Z] else [])
      ++ failed_items (idx + 1) content'
  end.
End AnalyzeVocabulary.

(** The text without its closing brackets. *)
Definition drop_closers (s : str) : str := List.filter not_rparen s.

(** The text without its space characters. *)
Definition drop_spaces (s : str) : str :=
  List.filter (fun c => negb (Ascii.eqb c " ")) s.

(** An item of the file that line 30 skips. *)
Definition item_blank (amr_str : str) : bool :=
  bool_decide (strip amr_str = []).

(** What [process_csv] writes for one row: the cleaned text without its
    duplicate lines, and a blank line. *)
Definition row_output (amr : str) : str :=
  fst (remove_duplicate_triples (clean_amr amr)) ++ [nl; nl].

(** The file of a column of the frame. *)
Definition column_file (df : dataframe) (col : list ascii) : str :=
  concat (map (fun row => row_output (row col)) (df_rows df)).

(** The triples that the loop of [get_reentrant_triples] collects from a
    set of node labels. *)
Fixpoint reentrant_from (node_labels : gset (list ascii)) (ts : list triple)
  : list triple :=
  match ts with
  | [] => []
  | (s, r, tg) :: ts' =>
      if bool_decide (r = py ":instance") then
        reentrant_from ({[s]} ∪ node_labels) ts'
      else if bool_decide (tg ∈ node_labels) then
        (s, r, tg) :: reentrant_from node_labels ts'
      else reentrant_from node_labels ts'
  end.

(** The sources of the [:instance] triples among [ts]. *)
Definition instance_sources (ts : list triple) : list (list ascii) :=
  map (fun t => fst (fst t))
    (List.filter (fun t => bool_decide (snd (fst t) = py ":instance")) ts).

(** The input without its leading space characters. *)
Fixpoint skip_spaces (s : str) : str :=
  match s with
  | c :: s' => if Ascii.eqb " " c then skip_spaces s' else s
  | [] => []
  end.

(** A block of the file for which [load] goes on to decode. *)
Definition has_amr_string (no_tokens : bool) (sent : str) : bool :=
  negb (bool_decide (get_amr_string no_tokens sent = [])).

(** Whether a text starts with a space character. *)
Definition head_is_space (s : str) : bool :=
  match s with
  | c :: _ => Ascii.eqb " " c
  | [] => false
  end.

(** The blocks of a file as [load] splits them, and its [no_tokens]. *)
Definition load_sents (text : str) : list str :=
  split_blank (remove_char "013" text).

Definition load_no_tokens (text : str) : bool :=
  forallb (fun sent => startswith ["("] (strip sent)) (load_sents text).

(** A text that does not start with white space. *)
Definition no_lead (s : str) : Prop :=
  match s with
  | c :: _ => is_space c = false
  | [] => True
  end.

(** * Properties *)

(** ** Character facts *)

Lemma eqb_false_of_ne (a b : ascii) : a <> b -> Ascii.eqb a b = false.
Proof. apply Ascii.eqb_neq. Qed.

Lemma not_rparen_true (c : ascii) : not_rparen c = true <-> c <> ")".
Proof.
  unfold not_rparen. rewrite negb_true_iff. apply Ascii.eqb_neq.
Qed.

(** ** The regular-expression fragment *)

Section RegexFacts.
Context {R : Type}.
Implicit Types (k : @cont R) (acc s : str) (r : R).

Lemma lit_some c k acc s r :
  lit c k acc s = Some r ->
  exists s', s = c :: s' /\ k (acc ++ [c]) s' = Some r.
Proof.
  destruct s as [|x s']; simpl; [discriminate|].
  destruct (Ascii.eqb x c) eqn:E; [|discriminate].
  apply Ascii.eqb_eq in E. subst x. eauto.
Qed.

Lemma lit_hit c k acc s' : lit c k acc (c :: s') = k (acc ++ [c]) s'.
Proof. simpl. by rewrite Ascii.eqb_refl. Qed.

Lemma plus_some p k : forall s acc r,
  plus p k acc s = Some r ->
  exists xs s', xs <> [] /\ forallb p xs = true /\ s = xs ++ s'
                /\ k (acc ++ xs) s' = Some r.
Proof.
  induction s as [|x s' IH]; intros acc r; simpl; [discriminate|].
  destruct (p x) eqn:Hp; [|discriminate].
  destruct (plus p k (acc ++ [x]) s') as [r'|] eqn:E.
  - intros [= ->]. destruct (IH _ _ E) as (xs & t & _ & Hall & -> & Hk).
    exists (x :: xs), t. rewrite <- app_assoc in Hk. simpl in *.
    rewrite Hp, Hall. done.
  - intros Hk. exists [x], s'. simpl. rewrite Hp. done.
Qed.

(** A greedy repeat that reaches a character outside its class (or the
    end of the input) and whose continuation accepts there takes the
    whole run. *)
Lemma plus_whole p k : forall xs acc s' r,
  xs <> [] -> forallb p xs = true ->
  match s' with [] => True | y :: _ => p y = false end ->
  k (acc ++ xs) s' = Some r ->
  plus p k acc (xs ++ s') = Some r.
Proof.
  induction xs as [|x xs IH]; intros acc s' r Hne Hall Hstop Hk; [done|].
  simpl in Hall. apply andb_true_iff in Hall as [Hx Hall].
  simpl. rewrite Hx. destruct xs as [|x' xs].
  - simpl. destruct s' as [|y s'']; simpl.
    + done.
    + rewrite Hstop. done.
  - rewrite (IH (acc ++ [x]) s' r); [done|done|done|done|].
    by rewrite <- app_assoc.
Qed.

Lemma plus_none_head p k acc s :
  match s with [] => True | y :: _ => p y = false end ->
  plus p k acc s = None.
Proof. destruct s as [|y s']; simpl; [done|]. by intros ->. Qed.

Lemma lookahead_some p k acc s r :
  lookahead p k acc s = Some r ->
  exists x s', s = x :: s' /\ p x = true /\ k acc s = Some r.
Proof.
  destruct s as [|x s']; simpl; [discriminate|].
  destruct (p x) eqn:E; [|discriminate]. eauto.
Qed.
(** A greedy repeat whose continuation rejects every split inside [ys]
    fails on [ys]. *)
Lemma plus_all_fail p k s' : forall ys acc,
  match s' with [] => True | y :: _ => p y = false end ->
  (forall y1 y2, ys = y1 ++ y2 -> y1 <> [] ->
                 k (acc ++ y1) (y2 ++ s') = None) ->
  plus p k acc (ys ++ s') = None.
Proof.
  induction ys as [|y ys IH]; intros acc Hstop Hk.
  - by apply plus_none_head.
  - simpl. destruct (p y); [|done]. rewrite IH; [|done|].
    + by apply (Hk [y] ys).
    + intros y1 y2 -> Hy1. rewrite <- app_assoc. by apply (Hk (y :: y1) y2).
Qed.

(** Backtracking: a greedy repeat gives back the characters [ys] when the
    continuation rejects every longer split and accepts after [xs]. *)
Lemma plus_backtrack p k s' : forall xs acc ys r,
  xs <> [] -> forallb p xs = true ->
  match s' with [] => True | y :: _ => p y = false end ->
  (forall y1 y2, ys = y1 ++ y2 -> y1 <> [] ->
                 k (acc ++ xs ++ y1) (y2 ++ s') = None) ->
  k (acc ++ xs) (ys ++ s') = Some r ->
  plus p k acc (xs ++ ys ++ s') = Some r.
Proof.
  induction xs as [|x xs IH]; intros acc ys r Hne Hall Hstop Hno Hk; [done|].
  simpl in Hall. apply andb_true_iff in Hall as [Hx Hall].
  simpl. rewrite Hx. destruct xs as [|x' xs].
  - simpl. rewrite plus_all_fail; [done|done|].
    intros y1 y2 Hys Hy1. rewrite <- app_assoc. by apply Hno.
  - rewrite (IH (acc ++ [x]) ys r); [done|done|done|done| |].
    + intros y1 y2 Hys Hy1. rewrite <- app_assoc. by apply Hno.
    + by rewrite <- app_assoc.
Qed.
End RegexFacts.

(** ** [re.sub] *)

Section ReSub.
Variable m : str -> option (str * str).
Hypothesis m_consuming : consuming m.

Lemma re_sub_fuel_enough : forall f1 f2 s,
  length s < f1 -> length s < f2 ->
  re_sub_fuel m f1 s = re_sub_fuel m f2 s.
Proof.
  induction f1 as [|f1 IH]; intros f2 s H1 H2; [lia|].
  destruct f2 as [|f2]; [lia|]. simpl.
  destruct (m s) as [[repl rest]|] eqn:E.
  - f_equal. apply m_consuming in E. apply IH; lia.
  - destruct s as [|c s']; [done|]. f_equal. simpl in *. apply IH; lia.
Qed.

Lemma re_sub_match s repl rest :
  m s = Some (repl, rest) -> re_sub m s = repl ++ re_sub m rest.
Proof.
  intros E. unfold re_sub. pose proof (m_consuming _ _ _ E) as Hlt.
  rewrite (re_sub_fuel_enough (S (length rest)) (length s) rest) by lia.
  simpl. by rewrite E.
Qed.

Lemma re_sub_skip c s :
  m (c :: s) = None -> re_sub m (c :: s) = c :: re_sub m s.
Proof.
  intros E. unfold re_sub.
  rewrite (re_sub_fuel_enough (S (length s)) (length (c :: s)) s)
    by (simpl; lia).
  simpl. by rewrite E.
Qed.

Lemma re_sub_nil : re_sub m [] = [].
Proof.
  unfold re_sub. simpl. destruct (m []) as [[repl rest]|] eqn:E; [|done].
  apply m_consuming in E. simpl in E. lia.
Qed.

(** Induction along the search of [re.sub]. *)
Lemma re_sub_ind (P : str -> str -> Prop) :
  P [] [] ->
  (forall c s, m (c :: s) = None ->
               P s (re_sub m s) -> P (c :: s) (c :: re_sub m s)) ->
  (forall s repl rest, m s = Some (repl, rest) ->
                       P rest (re_sub m rest) ->
                       P s (repl ++ re_sub m rest)) ->
  forall s, P s (re_sub m s).
Proof.
  intros Hnil Hskip Hmatch s.
  remember (length s) as n eqn:Hn. revert s Hn.
  induction n as [n IH] using lt_wf_ind. intros s Hn.
  destruct (m s) as [[repl rest]|] eqn:E.
  - rewrite (re_sub_match _ _ _ E). apply Hmatch; [done|].
    apply (IH (length rest)); [|done]. apply m_consuming in E. lia.
  - destruct s as [|c s'].
    + rewrite re_sub_nil. done.
    + rewrite (re_sub_skip _ _ E). apply Hskip; [done|].
      apply (IH (length s')); [|done]. simpl in Hn. lia.
Qed.

(** Where the pattern matches nowhere, [re.sub] changes nothing. *)
Lemma re_sub_no_match : forall s,
  (forall pre suf, s = pre ++ suf -> m suf = None) -> re_sub m s = s.
Proof.
  induction s as [|c s IH]; intros Hno; [apply re_sub_nil|].
  rewrite re_sub_skip; [|by apply (Hno [])].
  f_equal. apply IH. intros pre suf ->. by apply (Hno (c :: pre)).
Qed.

(** A prefix in which no match starts is copied. *)
Lemma re_sub_prefix : forall pre s,
  (forall p1 p2, pre = p1 ++ p2 -> p2 <> [] -> m (p2 ++ s) = None) ->
  re_sub m (pre ++ s) = pre ++ re_sub m s.
Proof.
  induction pre as [|c pre IH]; intros s Hno; [done|].
  simpl. rewrite re_sub_skip; [|by apply (Hno [] (c :: pre))].
  f_equal. apply IH. intros p1 p2 -> Hp2. by apply (Hno (c :: p1)).
Qed.
End ReSub.

(** ** Bracket depth *)

Lemma count_cons c x s :
  count c (x :: s) = ((if decide (x = c) then 1 else 0) + count c s)%Z.
Proof.
  unfold count. rewrite filter_cons. destruct (decide (x = c)); simpl; lia.
Qed.

Lemma count_app c a b : count c (a ++ b) = (count c a + count c b)%Z.
Proof. unfold count. rewrite filter_app, length_app. lia. Qed.

Lemma count_nonneg c s : (0 <= count c s)%Z.
Proof. unfold count. lia. Qed.

Lemma depth_nil : depth [] = 0%Z.
Proof. done. Qed.

Lemma depth_open s : depth ("(" :: s) = (depth s + 1)%Z.
Proof. unfold depth. rewrite !count_cons. simpl. lia. Qed.

Lemma depth_close s : depth (")" :: s) = (depth s - 1)%Z.
Proof. unfold depth. rewrite !count_cons. simpl. lia. Qed.

Lemma depth_other c s : c <> "(" -> c <> ")" -> depth (c :: s) = depth s.
Proof.
  intros H1 H2. unfold depth. rewrite !count_cons.
  destruct (decide (c = "(")), (decide (c = ")")); done.
Qed.

Lemma depth_app a b : depth (a ++ b) = (depth a + depth b)%Z.
Proof. unfold depth. rewrite !count_app. lia. Qed.

Lemma balanced_from_cons d c s :
  balanced_from d (c :: s) ->
  (0 <= d + depth [c])%Z /\ balanced_from (d + depth [c]) s.
Proof.
  intros [Hpre Hend]. split; [apply (Hpre 1)|]. split.
  - intros n. specialize (Hpre (S n)). simpl in Hpre.
    change (c :: take n s) with ([c] ++ take n s) in Hpre.
    rewrite depth_app in Hpre. lia.
  - change (c :: s) with ([c] ++ s) in Hend. rewrite depth_app in Hend. lia.
Qed.

Lemma balanced_from_intro d c s :
  (0 <= d)%Z -> balanced_from (d + depth [c]) s -> balanced_from d (c :: s).
Proof.
  intros Hd [Hpre Hend]. split.
  - intros [|n]; simpl; [rewrite depth_nil; lia|].
    change (c :: take n s) with ([c] ++ take n s).
    rewrite depth_app. specialize (Hpre n). lia.
  - change (c :: s) with ([c] ++ s). rewrite depth_app. lia.
Qed.

(** ** The scrub pass *)

Lemma scrub_loop_from : forall s stack fixed stack' fixed',
  fold_left scrub_step s (stack, fixed) = (stack', fixed') ->
  fixed' ++ repeat ")" (length stack') = fixed ++ scrub_from (length stack) s.
Proof.
  induction s as [|c s IH]; intros stack fixed stack' fixed'; simpl.
  - by intros [= -> ->].
  - destruct (Ascii.eqb c "(") eqn:Eo.
    + intros H. apply IH in H. rewrite H, length_app, <- app_assoc. simpl.
      by replace (length stack + 1) with (S (length stack)) by lia.
    + destruct (Ascii.eqb c ")") eqn:Ec.
      * destruct stack as [|x stack].
        -- intros H. by apply IH in H.
        -- intros H. apply IH in H. rewrite H, <- app_assoc.
           assert (length (removelast (x :: stack)) = length stack) as ->;
             [|done].
           clear. revert x. induction stack as [|y st IHst]; intros x;
             [done|]. simpl in *. by rewrite IHst.
      * intros H. apply IH in H. by rewrite H, <- app_assoc.
Qed.

Lemma scrub_eq s : scrub s = scrub_from 0 s.
Proof.
  unfold scrub, times.
  destruct (fold_left scrub_step s ([], [])) as [stack fixed] eqn:E.
  apply scrub_loop_from in E. by rewrite Nat2Z.id.
Qed.

Lemma closers_balanced : forall d, balanced_from (Z.of_nat d) (repeat ")" d).
Proof.
  induction d as [|d IH].
  - split; [intros n; by destruct n|done].
  - simpl. apply balanced_from_intro; [lia|].
    rewrite depth_close, depth_nil.
    by replace (Z.of_nat (S d) + (0 - 1))%Z with (Z.of_nat d) by lia.
Qed.

Lemma scrub_from_balanced : forall s d,
  balanced_from (Z.of_nat d) (scrub_from d s).
Proof.
  induction s as [|c s IH]; intros d; simpl; [apply closers_balanced|].
  destruct (Ascii.eqb c "(") eqn:Eo.
  - apply Ascii.eqb_eq in Eo. subst c.
    apply balanced_from_intro; [lia|]. rewrite depth_open, depth_nil.
    specialize (IH (S d)).
    by replace (Z.of_nat d + (0 + 1))%Z with (Z.of_nat (S d)) by lia.
  - destruct (Ascii.eqb c ")") eqn:Ec.
    + apply Ascii.eqb_eq in Ec. subst c. destruct d as [|d]; [apply IH|].
      apply balanced_from_intro; [lia|]. rewrite depth_close, depth_nil.
      specialize (IH d).
      by replace (Z.of_nat (S d) + (0 - 1))%Z with (Z.of_nat d) by lia.
    + apply Ascii.eqb_neq in Eo, Ec.
      apply balanced_from_intro; [lia|].
      rewrite depth_other, depth_nil by done.
      specialize (IH d). by replace (Z.of_nat d + 0)%Z with (Z.of_nat d) by lia.
Qed.

(** The scrub pass leaves a text that is balanced from its starting depth
    as it is. *)
Lemma scrub_from_fixed : forall s d,
  balanced_from (Z.of_nat d) s -> scrub_from d s = s.
Proof.
  induction s as [|c s IH]; intros d Hb.
  - destruct Hb as [_ Hend]. rewrite depth_nil in Hend.
    assert (d = 0) as -> by lia. done.
  - apply balanced_from_cons in Hb as [H0 Hb]. simpl.
    destruct (Ascii.eqb c "(") eqn:Eo.
    + apply Ascii.eqb_eq in Eo. subst c. f_equal. apply IH.
      rewrite depth_open, depth_nil in Hb.
      by replace (Z.of_nat (S d)) with (Z.of_nat d + (0 + 1))%Z by lia.
    + destruct (Ascii.eqb c ")") eqn:Ec.
      * apply Ascii.eqb_eq in Ec. subst c.
        rewrite depth_close, depth_nil in H0, Hb.
        destruct d as [|d]; [lia|]. f_equal. apply IH.
        by replace (Z.of_nat d) with (Z.of_nat (S d) + (0 - 1))%Z by lia.
      * apply Ascii.eqb_neq in Eo, Ec. f_equal. apply IH.
        rewrite depth_other, depth_nil in Hb by done.
        by replace (Z.of_nat d) with (Z.of_nat d + 0)%Z by lia.
Qed.

Lemma scrub_balanced s : balanced (scrub s).
Proof. rewrite scrub_eq. apply (scrub_from_balanced s 0). Qed.

Lemma scrub_fixed s : balanced s -> scrub s = s.
Proof. intros Hb. rewrite scrub_eq. by apply (scrub_from_fixed s 0). Qed.

Lemma scrub_idempotent s : scrub (scrub s) = scrub s.
Proof. apply scrub_fixed, scrub_balanced. Qed.

(** C1. For every input string the two passes of lines 45-63 (which are
    total functions: no step of them can raise) return a text whose
    running bracket depth never goes negative and ends at zero, so the
    text has as many ['('] as [')']; the text returned by [clean_amr] is
    such an output. *)
Theorem bracket_balancer_balanced (s : str) :
  (forall n, 0 <= depth (take n (bracket_balancer s)))%Z
  /\ depth (bracket_balancer s) = 0%Z
  /\ count "(" (bracket_balancer s) = count ")" (bracket_balancer s)
  /\ count "(" (clean_amr s) = count ")" (clean_amr s).
Proof.
  assert (forall t, count "(" (bracket_balancer t)
                    = count ")" (bracket_balancer t)) as Hcount.
  { intros t. destruct (scrub_balanced (insert_closers t)) as [_ Hend].
    unfold bracket_balancer, depth in *. lia. }
  destruct (scrub_balanced (insert_closers s)) as [Hpre Hend].
  unfold bracket_balancer at 1 2.
  split; [intros n; specialize (Hpre n); lia|].
  split; [lia|]. split; [apply Hcount|]. unfold clean_amr. apply Hcount.
Qed.

(** ** The targeted closer insertion *)

Ltac char_cases c :=
  destruct c as [[] [] [] [] [] [] [] []]; vm_compute; congruence.

Lemma lower_digit_not_rparen c :
  is_lower_digit c = true -> not_rparen c = true.
Proof. char_cases c. Qed.

Lemma space_not_rparen c : is_space c = true -> not_rparen c = true.
Proof. char_cases c. Qed.


Lemma forallb_weaken (p q : ascii -> bool) (l : str) :
  (forall c, p c = true -> q c = true) ->
  forallb p l = true -> forallb q l = true.
Proof.
  intros Hpq. induction l as [|x l IH]; simpl; [done|].
  rewrite !andb_true_iff. intros [Hx Hl]. split; [by apply Hpq|by apply IH].
Qed.

(** The end of the pattern, [(\n|$)], after group 1. *)
Lemma node_open_tail (g1 r1 G1 G2 rest : str) :
  alt (lit nl) dollar (fun g2 r2 => Some (g1, g2, r2)) [] r1
    = Some (G1, G2, rest) ->
  G1 = g1 /\ r1 = G2 ++ rest /\ (G2 = [nl] \/ (G2 = [] /\ rest = [])).
Proof.
  unfold alt, lit, dollar. destruct r1 as [|x r1]; simpl.
  - intros [= <- <- <-]. auto.
  - destruct (Ascii.eqb x nl) eqn:E.
    + apply Ascii.eqb_eq in E. subst x. intros [= <- <- <-]. auto.
    + destruct r1; discriminate.
Qed.

(** What a match of the node-open pattern looks like: it starts with an
    opener, holds no closer, and ends right before a newline, which it
    takes, or at the end of the text. *)
Lemma node_open_some (s g1 g2 rest : str) :
  node_open_re s = Some (g1, g2, rest) ->
  exists body,
    g1 = "(" :: body /\ forallb not_rparen body = true
    /\ s = g1 ++ g2 ++ rest /\ (g2 = [nl] \/ (g2 = [] /\ rest = [])).
Proof.
  unfold node_open_re. intros H.
  apply lit_some in H as (s1 & -> & H).
  apply plus_some in H as (ids & s2 & _ & Hids & -> & H).
  apply plus_some in H as (ws & s3 & _ & Hws & -> & H).
  apply lit_some in H as (s4 & -> & H).
  apply plus_some in H as (run & r1 & _ & Hrun & -> & H).
  apply node_open_tail in H as (-> & -> & Hg2).
  exists (ids ++ ws ++ "/" :: run). simpl.
  rewrite <- !app_assoc. simpl. split; [done|]. split; [|done].
  rewrite !forallb_app. simpl. rewrite Hrun.
  rewrite (forallb_weaken _ _ _ lower_digit_not_rparen Hids).
  by rewrite (forallb_weaken _ _ _ space_not_rparen Hws).
Qed.


Lemma insert_closers_eq s : insert_closers s = re_sub closer_match s.
Proof. done. Qed.

Lemma closer_match_consuming : consuming closer_match.
Proof.
  intros s repl rest. unfold closer_match.
  destruct (node_open_re s) as [[[g1 g2] r]|] eqn:E; [|discriminate].
  intros [= <- <-]. apply node_open_some in E as (body & -> & _ & -> & _).
  rewrite !length_app. simpl. lia.
Qed.

Lemma closers_inserted_prefix pre s t :
  closers_inserted s t -> closers_inserted (pre ++ s) (pre ++ t).
Proof.
  intros H. induction pre as [|c pre IH]; [done|]. simpl. by constructor.
Qed.

Lemma insert_closers_inserted s : closers_inserted s (insert_closers s).
Proof.
  rewrite insert_closers_eq.
  apply (re_sub_ind closer_match closer_match_consuming closers_inserted).
  - constructor.
  - intros c t _ IH. by constructor.
  - intros t repl rest Hm IH. unfold closer_match in Hm.
    destruct (node_open_re t) as [[[g1 g2] r]|] eqn:E; [|discriminate].
    injection Hm as <- <-.
    apply node_open_some in E as (body & _ & _ & -> & Hg2).
    rewrite <- app_assoc. apply closers_inserted_prefix.
    destruct Hg2 as [->|[-> ->]]; simpl.
    + by constructor.
    + rewrite re_sub_nil by apply closer_match_consuming. constructor.
Qed.

Lemma closers_inserted_chars s t c :
  closers_inserted s t -> c ∈ t -> c ∈ s \/ c = ")".
Proof.
  induction 1 as [| |s t _ IH|x s t _ IH]; intros Hc.
  - by apply elem_of_nil in Hc.
  - apply list_elem_of_singleton in Hc. auto.
  - rewrite !elem_of_cons in Hc. rewrite elem_of_cons.
    destruct Hc as [->|[->|Hc]]; auto. destruct (IH Hc); auto.
  - rewrite elem_of_cons in Hc. rewrite elem_of_cons.
    destruct Hc as [->|Hc]; auto. destruct (IH Hc); auto.
Qed.

Lemma scrub_from_chars : forall s d c,
  c ∈ scrub_from d s -> c ∈ s \/ c = ")".
Proof.
  induction s as [|x s IH]; intros d c; simpl.
  - intros Hc. right. apply list_elem_of_In, repeat_spec in Hc. done.
  - destruct (Ascii.eqb x "("); [|destruct (Ascii.eqb x ")");
      [destruct d|]]; rewrite ?elem_of_cons;
      try (intros [->|Hc]; [by left; left|]);
      try intros Hc; destruct (IH _ _ Hc); auto.
Qed.

Lemma count_rparen_zero (body : str) :
  forallb not_rparen body = true -> count ")" body = 0%Z.
Proof.
  induction body as [|c body IH]; simpl; [done|].
  rewrite andb_true_iff, not_rparen_true. intros [Hc Hb].
  rewrite count_cons, IH by done. by destruct (decide (c = ")")).
Qed.

Lemma contains_false c (s : str) : contains c s = false <-> c ∉ s.
Proof.
  unfold contains. induction s as [|x s IH]; simpl.
  - split; [intros _; apply not_elem_of_nil|done].
  - rewrite orb_false_iff, not_elem_of_cons, IH, Ascii.eqb_neq. done.
Qed.

(** The insertion finds nothing to do in a balanced text without a
    newline: a match would run from an opener to the end of the text
    without meeting a closer. *)
Lemma insert_closers_fixed_one_line (t : str) :
  balanced t -> nl ∉ t -> insert_closers t = t.
Proof.
  intros [Hpre Hend] Hnl. rewrite insert_closers_eq.
  apply re_sub_no_match; [apply closer_match_consuming|].
  intros pre suf ->. unfold closer_match.
  destruct (node_open_re suf) as [[[g1 g2] rest]|] eqn:E; [exfalso|done].
  apply node_open_some in E as (body & -> & Hbody & -> & Hg2).
  destruct Hg2 as [->|[-> ->]].
  - apply Hnl. rewrite !elem_of_app. right. right. left. by left.
  - specialize (Hpre (length pre)). rewrite take_app_length in Hpre.
    rewrite !app_nil_r, depth_app, depth_open in Hend.
    pose proof (count_nonneg "(" body). unfold depth at 2 in Hend.
    rewrite (count_rparen_zero body Hbody) in Hend. lia.
Qed.

Lemma bracket_balancer_chars s c :
  c ∈ bracket_balancer s -> c ∈ s \/ c = ")".
Proof.
  unfold bracket_balancer. rewrite scrub_eq. intros Hc.
  apply scrub_from_chars in Hc as [Hc|Hc]; [|by right].
  by apply (closers_inserted_chars _ _ _ (insert_closers_inserted s)).
Qed.

(** C10, as the code has it. The scrub pass is idempotent on every text,
    and the two passes together are idempotent on every text without a
    newline. *)
Theorem balancer_idempotent_one_line :
  (forall s, scrub (scrub s) = scrub s)
  /\ (forall s, contains nl s = false ->
        bracket_balancer (bracket_balancer s) = bracket_balancer s).
Proof.
  split; [apply scrub_idempotent|]. intros s Hnl.
  apply contains_false in Hnl.
  unfold bracket_balancer at 1.
  rewrite insert_closers_fixed_one_line.
  - apply scrub_idempotent.
  - apply scrub_balanced.
  - intros Hc. apply bracket_balancer_chars in Hc as [Hc|Hc]; done.
Qed.

Lemma balancer_idempotent_one_line_witness :
  contains nl (py "(a / foo :ARG0 (b / bar") = false
  /\ bracket_balancer (bracket_balancer (py "(a / foo :ARG0 (b / bar"))
     = bracket_balancer (py "(a / foo :ARG0 (b / bar").
Proof.
  split; [reflexivity|].
  apply (proj2 balancer_idempotent_one_line). reflexivity.
Defined.

(** C10, as stated, fails: on the two lines ["(a / b"] and ["("] the first
    application closes both openers at the end of the text; the second
    one finds the first line open before its newline, closes it there, and
    the scrub pass then drops the last closer. *)
Lemma balancer_not_idempotent :
  bracket_balancer (py "(a / b" ++ nl :: py "(")
    = py "(a / b" ++ nl :: py "())"
  /\ bracket_balancer (bracket_balancer (py "(a / b" ++ nl :: py "("))
    = py "(a / b)" ++ nl :: py "()"
  /\ bracket_balancer (bracket_balancer (py "(a / b" ++ nl :: py "("))
    <> bracket_balancer (py "(a / b" ++ nl :: py "(").
Proof. vm_compute. split; [done|]. split; [done|discriminate]. Qed.






(** ** The multi-word node name fix *)

Lemma split_once_app sep (pre post : str) :
  contains sep pre = false ->
  split_once sep (pre ++ sep :: post) = (pre, post).
Proof.
  unfold contains. induction pre as [|c pre IH]; simpl.
  - by rewrite Ascii.eqb_refl.
  - rewrite orb_false_iff, Ascii.eqb_sym. intros [Hc Hpre].
    by rewrite Hc, IH.
Qed.

Lemma contains_app_hit c (pre post : str) :
  contains c (pre ++ c :: post) = true.
Proof.
  unfold contains. rewrite existsb_app. simpl.
  rewrite Ascii.eqb_refl. by rewrite orb_true_r.
Qed.

Lemma replace_app a b (s t : str) :
  replace a b (s ++ t) = replace a b s ++ replace a b t.
Proof. unfold replace. apply map_app. Qed.

Lemma replace_run a b k : replace a b (repeat a k) = repeat b k.
Proof.
  unfold replace. induction k as [|k IH]; simpl; [done|].
  by rewrite Ascii.eqb_refl, IH.
Qed.

(** C7, as the code has it. On a line that begins with ['('] and contains
    ['/'], lines 32-35 keep the text before the first ['/'] as it is and
    replace the text after it by its [strip()] in which every space
    character has become one underscore: a run of [k] spaces becomes [k]
    underscores, and the length of the stripped label is kept. *)
Theorem fix_node_name_label :
  (forall pre label,
      contains "/" pre = false ->
      fix_node_name ("(" :: pre ++ "/" :: label)
        = "(" :: pre ++ "/" :: replace " " "_" (strip label))
  /\ (forall a k b,
        replace " " "_" (a ++ repeat " " k ++ b)
          = replace " " "_" a ++ repeat "_" k ++ replace " " "_" b)
  /\ (forall s, length (replace " " "_" s) = length s).
Proof.
  split; [|split].
  - intros pre label Hpre. unfold fix_node_name.
    change ("(" :: pre ++ "/" :: label) with (("(" :: pre) ++ "/" :: label).
    rewrite contains_app_hit. simpl startswith. simpl andb.
    rewrite split_once_app; [done|]. simpl. by rewrite Hpre.
  - intros a k b. by rewrite !replace_app, replace_run.
  - intros s. unfold replace. apply length_map.
Qed.

Lemma fix_node_name_label_witness :
  contains "/" (py "m ") = false
  /\ fix_node_name (py "(m / micro biology")
     = py "(m /" ++ replace " " "_" (strip (py " micro biology")).
Proof.
  split; [reflexivity|].
  apply (proj1 fix_node_name_label (py "m ") (py " micro biology")).
  reflexivity.
Defined.

(** C7, as stated, fails: the two spaces between ["b"] and ["c"] become two
    underscores, and a tab inside the label stays a tab. *)
Lemma fix_node_name_keeps_runs :
  fix_node_name (py "(a / b  c") = py "(a /b__c"
  /\ normalize_line (py "(a / b  c") = py "(a /b__c"
  /\ fix_node_name (py "(a / b" ++ "009" :: py "c")
     = py "(a /b" ++ "009" :: py "c".
Proof. vm_compute. done. Qed.

(** ** The space after roles *)

Lemma role_re_head (c : ascii) (s : str) : c <> ":" -> role_re (c :: s) = None.
Proof.
  intros Hc. unfold role_re, lit. by rewrite (eqb_false_of_ne _ _ Hc).
Qed.

Lemma role_re_some (s g1 rest : str) :
  role_re s = Some (g1, rest) ->
  exists r, g1 = ":" :: r /\ r <> [] /\ s = g1 ++ rest.
Proof.
  unfold role_re. intros H.
  apply lit_some in H as (s1 & -> & H).
  apply plus_some in H as (r & s2 & Hr & _ & -> & H).
  apply lookahead_some in H as (x & s3 & -> & _ & H).
  injection H as <- <-. by exists r.
Qed.

(** A role token whose last character is followed by a character that is
    neither white space nor ['/'] is matched whole. *)
Lemma role_re_glued (r : str) (c : ascii) (rest : str) :
  r <> [] -> forallb is_role_char r = true ->
  is_role_char c = false -> not_space_slash c = true ->
  role_re (":" :: r ++ c :: rest) = Some (":" :: r, c :: rest).
Proof.
  intros Hr1 Hr2 Hc1 Hc2. unfold role_re. rewrite lit_hit.
  apply plus_whole; [done|done|done|]. simpl. by rewrite Hc2.
Qed.

Lemma role_match_consuming : consuming role_match.
Proof.
  intros s repl rest. unfold role_match.
  destruct (role_re s) as [[g1 r]|] eqn:E; [|discriminate].
  intros [= <- <-]. apply role_re_some in E as (x & -> & _ & ->).
  rewrite length_app. simpl. lia.
Qed.

(** C8, as the code has it. Where a [':'] and the run of word characters
    and hyphens after it end right before a character that is neither
    white space nor ['/'], line 38 puts one space after the run and goes
    on behind it; the text before the first [':'] of the line is copied. *)
Theorem space_after_glued_role (pre r : str) (c : ascii) (rest : str) :
  contains ":" pre = false ->
  r <> [] -> forallb is_role_char r = true ->
  is_role_char c = false -> not_space_slash c = true ->
  space_after_roles (pre ++ ":" :: r ++ c :: rest)
    = pre ++ ":" :: r ++ " " :: space_after_roles (c :: rest).
Proof.
  intros Hpre Hr1 Hr2 Hc1 Hc2. unfold space_after_roles.
  rewrite (re_sub_prefix _ role_match_consuming).
  - f_equal.
    rewrite (re_sub_match _ role_match_consuming _
               ((":" :: r) ++ [" "]) (c :: rest)).
    + simpl. by rewrite <- app_assoc.
    + unfold role_match. by rewrite role_re_glued.
  - intros p1 p2 -> Hp2. destruct p2 as [|x p2]; [done|].
    unfold role_match. rewrite <- app_comm_cons, role_re_head; [done|].
    intros ->. apply contains_false in Hpre. apply Hpre.
    rewrite elem_of_app. right. by left.
Qed.

Lemma space_after_glued_role_witness :
  space_after_roles (py "x :ARG0(b / bar)")
    = py "x :ARG0 " ++ space_after_roles (py "(b / bar)").
Proof.
  apply (space_after_glued_role (py "x ") (py "ARG0") "(" (py "b / bar)"));
    done.
Defined.

(** C8, as stated, fails. On the line of the scenario the node name fix
    runs first and joins the text after ['/'] with underscores, so that
    the output has no space right after [":ARG0"]; and a role that is
    already followed by a space gets a space before its last character. *)
Lemma role_space_scenario :
  normalize_line (py "(g / gggg) :ARG0 x") = py "(g /gggg)_:ARG0_ x"
  /\ clean_amr (py "(g / gggg) :ARG0 x") = py "(g /gggg)_:ARG0_ x"
  /\ has_infix (py ":ARG0 ") (clean_amr (py "(g / gggg) :ARG0 x")) = false
  /\ space_after_roles (py ":ARG0 x") = py ":ARG 0 x".
Proof. vm_compute. done. Qed.

(** ** [validate_amr] *)

Lemma validate_amr_returns (decode : str -> res graph) (s : str) :
  exists r, validate_amr decode s = Ret r.
Proof.
  unfold validate_amr. destruct (decode s) as [g|[]]; simpl; eauto.
  destruct (decode (count_fixed s)) as [g|e]; simpl; eauto.
Qed.


(** ** [process_csv] *)

Lemma validation_tuple_truthy (r : bool * str) :
  truthy (validation_tuple r) = true.
Proof. done. Qed.

(** The loop over the rows from any state of the counters. *)
Lemma process_rows_run (decode : str -> res graph) : forall rows st,
  for_each (process_row decode) rows st
    = Ret {| valid_count := valid_count st + Z.of_nat (length rows);
             invalid_count := invalid_count st;
             total_duplicates :=
               total_duplicates st
               + foldr Z.add 0%Z
                   (map (fun amr => snd (remove_duplicate_triples (clean_amr amr)))
                        rows);
             written :=
               written st
               ++ map (fun amr => fst (remove_duplicate_triples (clean_amr amr))
                                  ++ [nl; nl]) rows |}.
Proof.
  induction rows as [|amr rows IH]; intros st.
  - simpl. destruct st. simpl. f_equal. f_equal; [lia|lia|by rewrite app_nil_r].
  - cbn [for_each]. unfold process_row at 1.
    destruct (remove_duplicate_triples (clean_amr amr)) as [cleaned dups] eqn:E.
    destruct (validate_amr_returns decode cleaned) as [r ->].
    cbn [bind]. rewrite validation_tuple_truthy. cbn [bind].
    rewrite IH. cbn [map foldr length].
    rewrite E. simpl. f_equal. f_equal; [lia|lia|].
    by rewrite <- app_assoc.
Qed.

(** C4. The tuple that [validate_amr] returns is truthy whatever it holds,
    so for every decoder and every list of rows the loop of [process_csv]
    counts every row as valid and none as invalid, and writes for every
    row the deduplicated text followed by a blank line: never the
    ["# INVALID AMR"] block, the repaired text or the sentinel. *)
Theorem process_column_all_valid :
  (forall r : bool * str, truthy (validation_tuple r) = true)
  /\ (forall (decode : str -> res graph) (rows : list str),
        exists dups,
          process_column decode rows
            = Ret {| valid_count := Z.of_nat (length rows);
                     invalid_count := 0;
                     total_duplicates := dups;
                     written :=
                       map (fun amr =>
                              fst (remove_duplicate_triples (clean_amr amr))
                              ++ [nl; nl]) rows |}).
Proof.
  split; [apply validation_tuple_truthy|]. intros decode rows.
  unfold process_column. rewrite process_rows_run. simpl. eauto.
Qed.

(** ** [remove_duplicate_triples] *)

Lemma split_nonempty sep (s : str) : split sep s <> [].
Proof.
  destruct s as [|c s]; simpl; [done|].
  destruct (Ascii.eqb c sep); [done|]. by destruct (split sep s).
Qed.

Lemma split_no_sep sep : forall s : str, Forall (fun l => sep ∉ l) (split sep s).
Proof.
  induction s as [|c s IH]; simpl.
  - constructor; [apply not_elem_of_nil|constructor].
  - destruct (Ascii.eqb c sep) eqn:E.
    + constructor; [apply not_elem_of_nil|done].
    + apply Ascii.eqb_neq in E. destruct (split sep s) as [|l ls].
      * constructor; [|constructor]. rewrite not_elem_of_cons.
        split; [done|apply not_elem_of_nil].
      * inversion IH as [|? ? Hl Hls]; subst. constructor; [|done].
        rewrite not_elem_of_cons. split; done.
Qed.

Lemma split_line sep : forall l : str, sep ∉ l -> split sep l = [l].
Proof.
  induction l as [|c l IH]; [done|]. rewrite not_elem_of_cons.
  intros [Hc Hl]. simpl. rewrite IH by done.
  destruct (Ascii.eqb c sep) eqn:E; [|done]. apply Ascii.eqb_eq in E. done.
Qed.

Lemma split_app_sep sep : forall l r : str,
  sep ∉ l -> split sep (l ++ sep :: r) = l :: split sep r.
Proof.
  induction l as [|c l IH]; intros r.
  - intros _. simpl. by rewrite Ascii.eqb_refl.
  - rewrite not_elem_of_cons. intros [Hc Hl]. simpl. rewrite IH by done.
    destruct (Ascii.eqb c sep) eqn:E; [|done]. apply Ascii.eqb_eq in E. done.
Qed.

(** Splitting a text that was joined from lines gives the lines back. *)
Lemma split_join sep : forall ls : list str,
  ls <> [] -> Forall (fun l => sep ∉ l) ls -> split sep (join sep ls) = ls.
Proof.
  induction ls as [|l ls IH]; [done|]. intros _ Hall.
  inversion Hall as [|? ? Hl Hls]; subst. destruct ls as [|l2 ls].
  - simpl. by apply split_line.
  - change (join sep (l :: l2 :: ls)) with (l ++ sep :: join sep (l2 :: ls)).
    rewrite split_app_sep by done. f_equal. by apply IH.
Qed.

Lemma Forall_sublist_of {A : Type} (P : A -> Prop) (l1 l2 : list A) :
  l1 `sublist_of` l2 -> Forall P l2 -> Forall P l1.
Proof.
  induction 1 as [|x l1 l2 _ IH|x l1 l2 _ IH]; intros Hall; [done| |].
  - inversion Hall; subst. constructor; auto.
  - inversion Hall; subst. auto.
Qed.

Lemma dedup_fold : forall lines seen acc n,
  exists seen',
    fold_left dedup_step lines (seen, acc, n)
      = (seen', acc ++ fst (dedup_from seen lines),
         (n + snd (dedup_from seen lines))%Z).
Proof.
  induction lines as [|line rest IH]; intros seen acc n; simpl.
  - exists seen. rewrite app_nil_r. f_equal. lia.
  - destruct (passes_through line).
    + destruct (IH seen (acc ++ [line]) n) as [seen' ->]. exists seen'.
      destruct (dedup_from seen rest) as [kept k]. simpl.
      by rewrite <- app_assoc.
    + destruct (bool_decide (strip line ∈ seen)).
      * destruct (IH seen acc (n + 1)%Z) as [seen' ->]. exists seen'.
        destruct (dedup_from seen rest) as [kept k]. simpl.
        f_equal. lia.
      * destruct (IH ({[strip line]} ∪ seen) (acc ++ [line]) n) as [seen' ->].
        exists seen'.
        destruct (dedup_from ({[strip line]} ∪ seen) rest) as [kept k].
        simpl. by rewrite <- app_assoc.
Qed.

Lemma dedup_from_spec : forall lines seen,
  fst (dedup_from seen lines) `sublist_of` lines
  /\ List.filter passes_through (fst (dedup_from seen lines))
     = List.filter passes_through lines
  /\ NoDup (map strip (List.filter is_triple_line (fst (dedup_from seen lines))))
  /\ (forall x, x ∈ map strip (List.filter is_triple_line
                                 (fst (dedup_from seen lines))) -> x ∉ seen)
  /\ snd (dedup_from seen lines)
     = (Z.of_nat (length lines)
        - Z.of_nat (length (fst (dedup_from seen lines))))%Z.
Proof.
  induction lines as [|line rest IH]; intros seen.
  - simpl. split; [constructor|]. split; [done|]. split; [constructor|].
    split; [|done]. intros x Hx. by apply elem_of_nil in Hx.
  - cbn [dedup_from]. unfold is_triple_line in *.
    destruct (passes_through line) eqn:Hp.
    + destruct (IH seen) as (H1 & H2 & H3 & H4 & H5).
      destruct (dedup_from seen rest) as [kept k]. simpl in *.
      rewrite Hp. simpl. split; [by constructor|]. split; [by f_equal|].
      split; [done|]. split; [done|]. lia.
    + destruct (bool_decide (strip line ∈ seen)) eqn:Hs.
      * destruct (IH seen) as (H1 & H2 & H3 & H4 & H5).
        destruct (dedup_from seen rest) as [kept k]. simpl in *.
        rewrite Hp. split; [by constructor|]. split; [done|].
        split; [done|]. split; [done|]. lia.
      * apply bool_decide_eq_false in Hs.
        destruct (IH ({[strip line]} ∪ seen)) as (H1 & H2 & H3 & H4 & H5).
        destruct (dedup_from ({[strip line]} ∪ seen) rest) as [kept k].
        simpl in *. rewrite Hp. simpl.
        split; [by constructor|]. split; [done|]. split.
        { apply NoDup_cons. split; [|done]. intros Hin.
          apply H4 in Hin. apply Hin, elem_of_union. left.
          by apply elem_of_singleton. }
        split; [|lia]. intros x Hx. apply elem_of_cons in Hx as [->|Hx];
          [done|]. apply H4 in Hx. intros Hseen.
        apply Hx, elem_of_union. by right.
Qed.

Lemma dedup_from_first (line : str) (rest : list str) :
  fst (dedup_from ∅ (line :: rest)) <> [].
Proof.
  cbn [dedup_from]. destruct (passes_through line).
  - by destruct (dedup_from ∅ rest).
  - rewrite bool_decide_eq_false_2 by set_solver.
    by destruct (dedup_from ({[strip line]} ∪ ∅) rest).
Qed.

(** C3. For every text, the lines of the text returned by
    [remove_duplicate_triples] are a subsequence, in order, of the lines
    of the input; the blank lines and the comment lines among them are
    those of the input; no two of the other lines are equal after
    [strip()]; and the returned count is not negative and is the number
    of input lines that are missing from the output. *)
Theorem remove_duplicate_triples_lines (amr_str : str) :
  split nl (fst (remove_duplicate_triples amr_str))
    `sublist_of` split nl amr_str
  /\ List.filter passes_through
       (split nl (fst (remove_duplicate_triples amr_str)))
     = List.filter passes_through (split nl amr_str)
  /\ NoDup (map strip
              (List.filter is_triple_line
                 (split nl (fst (remove_duplicate_triples amr_str)))))
  /\ (0 <= snd (remove_duplicate_triples amr_str))%Z
  /\ snd (remove_duplicate_triples amr_str)
     = (Z.of_nat (length (split nl amr_str))
        - Z.of_nat
            (length (split nl (fst (remove_duplicate_triples amr_str)))))%Z.
Proof.
  unfold remove_duplicate_triples.
  destruct (dedup_fold (split nl amr_str) ∅ [] 0%Z) as [seen' ->].
  cbn [fst snd app].
  destruct (dedup_from_spec (split nl amr_str) ∅) as (H1 & H2 & H3 & _ & H5).
  assert (split nl (join nl (fst (dedup_from ∅ (split nl amr_str))))
          = fst (dedup_from ∅ (split nl amr_str))) as ->.
  { apply split_join.
    - pose proof (split_nonempty nl amr_str) as Hne.
      destruct (split nl amr_str) as [|line rest]; [done|].
      apply dedup_from_first.
    - eapply Forall_sublist_of; [exact H1|apply split_no_sep]. }
  split; [done|]. split; [done|]. split; [done|].
  apply sublist_length in H1. lia.
Qed.

(** ** [analyze_amr_file] *)

Lemma occurrences_cons (k t : triple) (ts : list triple) :
  occurrences k (t :: ts)
  = ((if decide (t = k) then 1 else 0) + occurrences k ts)%Z.
Proof.
  unfold occurrences. rewrite filter_cons.
  destruct (decide (t = k)); simpl; lia.
Qed.

Lemma occurrences_nonneg (k : triple) (ts : list triple) :
  (0 <= occurrences k ts)%Z.
Proof. unfold occurrences. lia. Qed.

(** The counter of a key after the loop over the triples of one graph. *)
Lemma track_fold (k : triple) : forall ts seen (dups : gmap triple Z),
  default 0%Z (snd (fold_left track_step ts (seen, dups)) !! k)
  = (default 0%Z (dups !! k)
     + (if bool_decide (k ∈ seen) then occurrences k ts else repeats k ts))%Z.
Proof.
  induction ts as [|t ts IH]; intros seen dups.
  - simpl. unfold repeats, occurrences. simpl. destruct (bool_decide _); lia.
  - cbn [fold_left]. unfold track_step at 2. rewrite IH.
    rewrite occurrences_cons. unfold repeats. rewrite occurrences_cons.
    pose proof (occurrences_nonneg k ts) as Hocc.
    destruct (decide (t = k)) as [->|Hne].
    + rewrite (bool_decide_eq_true_2 (k ∈ {[k]} ∪ seen)) by set_solver.
      destruct (bool_decide (k ∈ seen)).
      * rewrite lookup_insert_eq. simpl. lia.
      * lia.
    + assert (bool_decide (k ∈ {[t]} ∪ seen) = bool_decide (k ∈ seen)) as ->.
      { apply bool_decide_ext. rewrite elem_of_union, elem_of_singleton.
        split; [intros [Hk|Hk]; [congruence|done]|by right]. }
      assert (default 0%Z
                ((if bool_decide (t ∈ seen)
                  then <[t:=(default 0 (dups !! t) + 1)%Z]> dups
                  else dups) !! k)
              = default 0%Z (dups !! k)) as ->.
      { destruct (bool_decide (t ∈ seen)); [|done].
        by rewrite lookup_insert_ne. }
      unfold repeats. destruct (bool_decide (k ∈ seen)); lia.
Qed.

Lemma occurrences_readable_prefix (read_error : triple -> option exn)
  (k : triple) : forall ts,
  (occurrences k (readable_prefix read_error ts) <= occurrences k ts)%Z.
Proof.
  induction ts as [|t ts IH]; [done|]. cbn [readable_prefix].
  pose proof (occurrences_nonneg k (t :: ts)).
  destruct (read_error t); [done|]. rewrite !occurrences_cons. lia.
Qed.

Lemma repeats_processed_triples (iter_error : graph -> option exn)
  (read_error : triple -> option exn) (k : triple) (g : graph) :
  (0 <= repeats k (processed_triples iter_error read_error g)
     <= repeats k (triples g))%Z.
Proof.
  unfold processed_triples, repeats. destruct (iter_error g).
  - pose proof (occurrences_nonneg k (triples g)). unfold occurrences at 1 2.
    simpl. lia.
  - pose proof (occurrences_readable_prefix read_error k (triples g)). lia.
Qed.

(** The loop over the triples of one graph folds [track_step] over the
    triples before the first one that cannot be read, and raises where
    there is such a triple. *)
Lemma track_loop_spec (read_error : triple -> option exn) : forall ts st,
  fst (track_loop read_error ts st)
  = snd (fold_left track_step (readable_prefix read_error ts) st)
  /\ match snd (track_loop read_error ts st) with
     | Some _ => true
     | None => false
     end
     = existsb (fun t => match read_error t with
                         | Some _ => true
                         | None => false
                         end) ts.
Proof.
  induction ts as [|t ts IH]; intros st; [done|].
  cbn [track_loop readable_prefix existsb].
  destruct (read_error t); [done|]. cbn [fold_left orb]. apply IH.
Qed.

Lemma analyze_loop_spec (decode : str -> res graph)
  (iter_error : graph -> option exn) (read_error : triple -> option exn)
  (k : triple) :
  forall content idx st,
    default 0%Z
      (duplicates (analyze_loop decode iter_error read_error idx content st)
         !! k)
    = (default 0%Z (duplicates st !! k)
       + total_repeats decode iter_error read_error k content)%Z
    /\ valid (analyze_loop decode iter_error read_error idx content st)
       = (valid st
          + Z.of_nat (length (List.filter (item_decodes decode) content)))%Z
    /\ error_lines (analyze_loop decode iter_error read_error idx content st)
       = error_lines st
         ++ failed_items decode iter_error read_error idx content.
Proof.
  induction content as [|a content IH]; intros idx st.
  - simpl. split; [unfold total_repeats; simpl; lia|].
    split; [lia|by rewrite app_nil_r].
  - cbn [analyze_loop].
    destruct (IH (idx + 1)%Z
                (analyze_item decode iter_error read_error st idx a))
      as (H1 & H2 & H3). rewrite H1, H2, H3. clear IH H1 H2 H3.
    unfold total_repeats. cbn [map foldr List.filter failed_items].
    unfold analyze_item, item_repeats, item_decodes, item_fails,
      processed_triples, raises_after_decode.
    destruct (bool_decide (strip a = [])); simpl.
    + split; [lia|]. split; [lia|done].
    + destruct (decode (strip a)) as [g|e]; simpl.
      * destruct (iter_error g); simpl.
        -- unfold repeats, occurrences. simpl.
           split; [lia|]. split; [lia|]. by rewrite <- app_assoc.
        -- destruct (track_loop_spec read_error (triples g)
                       (∅, duplicates st)) as [Hd Hr].
           destruct (track_loop read_error (triples g) (∅, duplicates st))
             as [d r]. simpl in Hd, Hr. subst d. rewrite <- Hr. simpl.
           rewrite track_fold.
           rewrite bool_decide_eq_false_2 by set_solver.
           split; [lia|]. split; [lia|].
           destruct r; simpl; [by rewrite <- app_assoc|done].
      * split; [lia|]. split; [lia|]. by rewrite <- app_assoc.
Qed.

Lemma sublist_of_fmap {A B : Type} (f : A -> B) (l1 l2 : list A) :
  l1 `sublist_of` l2 -> f <$> l1 `sublist_of` f <$> l2.
Proof. induction 1; simpl; by constructor. Qed.

Lemma contributing_keys_NoDup (st : analysis_state) :
  NoDup (contributing_keys st).
Proof.
  unfold contributing_keys.
  eapply sublist_NoDup; [apply (NoDup_fst_map_to_list (duplicates st))|].
  apply sublist_of_fmap, sublist_filter.
Qed.

Lemma contributing_keys_elem (st : analysis_state) (k : triple) :
  k ∈ contributing_keys st <-> (1 < default 0 (duplicates st !! k))%Z.
Proof.
  unfold contributing_keys. rewrite list_elem_of_fmap. split.
  - intros ([k' v] & -> & Hin). apply list_elem_of_filter in Hin as [Hv Hin].
    apply elem_of_map_to_list in Hin. simpl in *. by rewrite Hin.
  - intros Hk. destruct (duplicates st !! k) as [v|] eqn:E; simpl in Hk; [|lia].
    exists (k, v). split; [done|]. apply list_elem_of_filter. split; [done|].
    by apply elem_of_map_to_list.
Qed.

(** The reported count is the number of distinct keys whose occurrences
    after the first in a graph, among the triples that the loop gets
    through, summed over all graphs, are more than one. *)
Lemma cross_duplicates_counts
  (decode : str -> res graph) (iter_error : graph -> option exn)
  (read_error : triple -> option exn) (text : str) (k : triple) :
  snd (fst (analyze_amr_file decode iter_error read_error text))
    = Z.of_nat (length (contributing_keys
                          (analyze_loop decode iter_error read_error 0
                             (split_blank text) analysis_start)))
  /\ NoDup (contributing_keys
              (analyze_loop decode iter_error read_error 0
                 (split_blank text) analysis_start))
  /\ (k ∈ contributing_keys
            (analyze_loop decode iter_error read_error 0
               (split_blank text) analysis_start)
      <-> (1 < total_repeats decode iter_error read_error k
                 (split_blank text))%Z).
Proof.
  split; [|split].
  - unfold analyze_amr_file, cross_duplicates, contributing_keys. simpl.
    by rewrite length_fmap.
  - apply contributing_keys_NoDup.
  - rewrite contributing_keys_elem.
    destruct (analyze_loop_spec decode iter_error read_error k
                (split_blank text) 0%Z analysis_start) as (-> & _ & _).
    simpl. rewrite lookup_empty. simpl. done.
Qed.

(** No key is reported where no key has more than one repeat in all. *)
Lemma cross_duplicates_zero
  (decode : str -> res graph) (iter_error : graph -> option exn)
  (read_error : triple -> option exn) (text : str) :
  (forall k, (total_repeats decode iter_error read_error k
                (split_blank text) <= 1)%Z) ->
  snd (fst (analyze_amr_file decode iter_error read_error text)) = 0%Z.
Proof.
  intros Hle.
  destruct (cross_duplicates_counts decode iter_error read_error text
              ([], [], [])) as (-> & _ & _).
  destruct (contributing_keys _) as [|k l] eqn:E; [done|exfalso].
  assert (k ∈ contributing_keys
                (analyze_loop decode iter_error read_error 0
                   (split_blank text) analysis_start))
    as Hk by (rewrite E; by left).
  apply (cross_duplicates_counts decode iter_error read_error text k) in Hk.
  specialize (Hle k). lia.
Qed.

(** C6, at a file of two graphs that share their one triple.  Both graphs
    are counted valid and the reported number of repeated triple keys is
    zero, whether or not the triples can be read: [seen] starts empty for
    every graph, so that the counter of a key is raised only for an
    occurrence that follows another one inside the same graph.  Where the
    triples can be read nothing is recorded as an error; where they are
    plain tuples, both positions are. *)
Theorem cross_duplicates_misses_shared_key
  (iter_error : graph -> option exn) (read_error : triple -> option exn) :
  fst (analyze_amr_file
         (decode_as [(py "a", py ":instance", py "b")])
         iter_error read_error
         (py "(a / b)" ++ [nl; nl] ++ py "(a / b)"))
    = (2%Z, 2%Z, 0%Z)
  /\ analyze_amr_file
       (decode_as [(py "a", py ":instance", py "b")])
       no_error no_error
       (py "(a / b)" ++ [nl; nl] ++ py "(a / b)")
     = (2%Z, 2%Z, 0%Z, [])
  /\ analyze_amr_file
       (decode_as [(py "a", py ":instance", py "b")])
       no_error attribute_error
       (py "(a / b)" ++ [nl; nl] ++ py "(a / b)")
     = (2%Z, 2%Z, 0%Z, [1%Z; 2%Z]).
Proof.
  split; [|split; vm_compute; reflexivity].
  set (decode := decode_as [(py "a", py ":instance", py "b")]).
  set (text := py "(a / b)" ++ [nl; nl] ++ py "(a / b)").
  assert (split_blank text = [py "(a / b)"; py "(a / b)"]) as Hsplit
    by reflexivity.
  assert (snd (fst (analyze_amr_file decode iter_error read_error text))
          = 0%Z) as Hcross.
  { apply cross_duplicates_zero. intros k. rewrite Hsplit.
    pose proof (repeats_processed_triples iter_error read_error k
                  {| triples := [(py "a", py ":instance", py "b")] |}) as Hr.
    assert (repeats k [(py "a", py ":instance", py "b")] = 0%Z) as H0.
    { unfold repeats. rewrite occurrences_cons. unfold occurrences. simpl.
      destruct (decide _); lia. }
    cbn [triples] in Hr. rewrite H0 in Hr.
    unfold total_repeats. cbn [map foldr]. unfold item_repeats.
    change (strip (py "(a / b)")) with (py "(a / b)").
    rewrite bool_decide_eq_false_2 by done.
    unfold decode, decode_as. lia. }
  revert Hcross. unfold analyze_amr_file. cbn [fst snd]. intros ->.
  destruct (analyze_loop_spec decode iter_error read_error ([], [], [])
              (split_blank text) 0%Z analysis_start) as (_ & -> & _).
  by rewrite Hsplit.
Qed.

(** ** Exceptions raised for one item of a batch *)





(** ** Sample runs *)

(** A graph that decodes and whose triples are plain tuples is counted
    valid and recorded as an error. *)
Example valid_and_error :
  analyze_amr_file (decode_as [(py "a", py ":instance", py "b")])
    no_error attribute_error (py "(a / b)")
    = (1%Z, 1%Z, 0%Z, [1%Z]).
Proof. vm_compute. reflexivity. Qed.

(** A key that occurs three times in one graph is reported, where the
    triples can be read. *)
Example three_in_one_graph :
  analyze_amr_file
    (decode_as [(py "a", py ":instance", py "b");
                (py "a", py ":instance", py "b");
                (py "a", py ":instance", py "b")])
    no_error no_error (py "(a / b)")
    = (1%Z, 1%Z, 1%Z, []).
Proof. vm_compute. reflexivity. Qed.

Example scrub_unmatched_closers : scrub (py ")))") = [].
Proof. reflexivity. Qed.

Example dedup_second_occurrence :
  remove_duplicate_triples (py ":ARG1 x" ++ nl :: py ":ARG1 x")
    = (py ":ARG1 x", 1%Z).
Proof. vm_compute. reflexivity. Qed.

Example validate_fallback :
  validate_amr decode_crash (py "(a / b") = Ret (false, sentinel).
Proof. reflexivity. Qed.

(** A row on which the decoder raises is written as it is and counted
    valid. *)
Example crash_counted_valid :
  process_column decode_crash [py "(a / b"]
    = Ret {| valid_count := 1; invalid_count := 0; total_duplicates := 0;
             written := [py "(a /b)" ++ [nl; nl]] |}.
Proof. vm_compute. reflexivity. Qed.

(** * Further properties of [process_amr.py] *)

(** ** The two bracket passes *)

(** X1. The texts that the scrub pass of lines 49-63 returns unchanged are
    exactly the balanced ones. *)
Theorem scrub_fixed_iff_balanced (s : str) : scrub s = s <-> balanced s.
Proof.
  split; [|apply scrub_fixed]. intros H. rewrite <- H. apply scrub_balanced.
Qed.

Lemma closers_inserted_drop (s t : str) :
  closers_inserted s t -> drop_closers t = drop_closers s.
Proof.
  unfold drop_closers. induction 1 as [| |s t _ IH|c s t _ IH]; simpl;
    [done|done|by rewrite IH|]. destruct (not_rparen c); by rewrite IH.
Qed.

Lemma drop_closers_repeat (d : nat) : drop_closers (repeat ")" d) = [].
Proof. induction d as [|d IH]; [done|]. simpl. exact IH. Qed.

Lemma scrub_from_drop : forall s d,
  drop_closers (scrub_from d s) = drop_closers s.
Proof.
  induction s as [|c s IH]; intros d; [apply drop_closers_repeat|].
  cbn [scrub_from]. destruct (Ascii.eqb c "(") eqn:Eo.
  - apply Ascii.eqb_eq in Eo. subst c. unfold drop_closers in *. simpl.
    by rewrite IH.
  - destruct (Ascii.eqb c ")") eqn:Ec.
    + apply Ascii.eqb_eq in Ec. subst c. unfold drop_closers in *.
      destruct d; simpl; by rewrite IH.
    + unfold drop_closers in *. simpl. destruct (not_rparen c); by rewrite IH.
Qed.

Lemma count_open_drop (s : str) : count "(" (drop_closers s) = count "(" s.
Proof.
  unfold drop_closers. induction s as [|c s IH]; [done|]. simpl.
  destruct (not_rparen c) eqn:E.
  - by rewrite !count_cons, IH.
  - rewrite count_cons, IH. unfold not_rparen in E.
    apply negb_false_iff, Ascii.eqb_eq in E. subst c.
    destruct (decide (")" = "(")); [done|lia].
Qed.

(** X2. The two passes of lines 45-63 only put closing brackets in or take
    them out: without its closing brackets the output is the input
    without its closing brackets, so every other character, the opening
    brackets included, is kept in its place and order. *)
Theorem bracket_balancer_only_closers (s : str) :
  drop_closers (bracket_balancer s) = drop_closers s
  /\ count "(" (bracket_balancer s) = count "(" s.
Proof.
  assert (drop_closers (bracket_balancer s) = drop_closers s) as H.
  { unfold bracket_balancer. rewrite scrub_eq, scrub_from_drop.
    apply closers_inserted_drop, insert_closers_inserted. }
  split; [done|].
  by rewrite <- (count_open_drop (bracket_balancer s)), H, count_open_drop.
Qed.

(** ** The space after roles *)

Lemma drop_spaces_app (a b : str) :
  drop_spaces (a ++ b) = drop_spaces a ++ drop_spaces b.
Proof. unfold drop_spaces. apply List.filter_app. Qed.

(** X3. Line 38 only puts space characters in: the line is a subsequence
    of the output, and both are the same text once their spaces are
    taken out. *)
Theorem space_after_roles_only_spaces (line : str) :
  line `sublist_of` space_after_roles line
  /\ drop_spaces (space_after_roles line) = drop_spaces line.
Proof.
  unfold space_after_roles.
  apply (re_sub_ind role_match role_match_consuming
           (fun s out => s `sublist_of` out /\ drop_spaces out = drop_spaces s)).
  - split; [constructor|done].
  - intros c s _ [H1 H2]. split; [by constructor|].
    unfold drop_spaces in *. simpl. by rewrite H2.
  - intros s repl rest Hm [H1 H2]. unfold role_match in Hm.
    destruct (role_re s) as [[g1 r]|] eqn:E; [|discriminate].
    injection Hm as <- <-. apply role_re_some in E as (x & _ & _ & ->).
    split.
    + rewrite <- app_assoc. apply sublist_app; [done|]. by constructor.
    + rewrite !drop_spaces_app, H2. by rewrite app_nil_r.
Qed.

Lemma role_char_not_space_slash c :
  is_role_char c = true -> not_space_slash c = true.
Proof. char_cases c. Qed.

Lemma space_slash_not_role_char c :
  not_space_slash c = false -> is_role_char c = false.
Proof. char_cases c. Qed.

(** A role name of two or more characters that ends before white space,
    a ['/'] or the end of the line is matched without its last character:
    the look-ahead fails after the whole name and holds one character
    earlier. *)
Lemma role_re_gives_back (r : str) (c : ascii) (rest : str) :
  r <> [] -> forallb is_role_char r = true -> is_role_char c = true ->
  match rest with [] => True | x :: _ => not_space_slash x = false end ->
  role_re (":" :: r ++ c :: rest) = Some (":" :: r, c :: rest).
Proof.
  intros Hr1 Hr2 Hc Hrest. unfold role_re. rewrite lit_hit.
  change (r ++ c :: rest) with (r ++ [c] ++ rest).
  apply plus_backtrack; [done|done| | |].
  - destruct rest as [|x rest]; [done|]. by apply space_slash_not_role_char.
  - intros y1 y2 Hy Hy1. destruct y1 as [|y y1]; [done|].
    injection Hy as <- Hy. symmetry in Hy.
    apply app_eq_nil in Hy as [-> ->]. unfold lookahead. cbn [app].
    destruct rest as [|x rest]; [done|]. by rewrite Hrest.
  - unfold lookahead. cbn [app]. by rewrite (role_char_not_space_slash c Hc).
Qed.

(** X4. Where a [':'] is followed by a role name of two or more word
    characters or hyphens and the name ends before white space, a ['/']
    or the end of the line, line 38 puts a space before the last
    character of the name and goes on from that character. *)
Theorem space_inside_spaced_role (pre r : str) (c : ascii) (rest : str) :
  contains ":" pre = false ->
  r <> [] -> forallb is_role_char r = true -> is_role_char c = true ->
  match rest with [] => True | x :: _ => not_space_slash x = false end ->
  space_after_roles (pre ++ ":" :: r ++ c :: rest)
    = pre ++ ":" :: r ++ " " :: space_after_roles (c :: rest).
Proof.
  intros Hpre Hr1 Hr2 Hc Hrest. unfold space_after_roles.
  rewrite (re_sub_prefix _ role_match_consuming).
  - f_equal.
    rewrite (re_sub_match _ role_match_consuming _
               ((":" :: r) ++ [" "]) (c :: rest)).
    + simpl. by rewrite <- app_assoc.
    + unfold role_match. by rewrite role_re_gives_back.
  - intros p1 p2 -> Hp2. destruct p2 as [|x p2]; [done|].
    unfold role_match. rewrite <- app_comm_cons, role_re_head; [done|].
    intros ->. apply contains_false in Hpre. apply Hpre.
    rewrite elem_of_app. right. by left.
Qed.

Lemma space_inside_spaced_role_witness :
  space_after_roles (py ":ARG0 x") = py ":ARG " ++ space_after_roles (py "0 x").
Proof.
  apply (space_inside_spaced_role [] (py "ARG") "0" (py " x")); done.
Defined.

(** ** The count-based repair of [validate_amr] *)

Lemma count_repeat_same (c : ascii) (n : nat) :
  count c (repeat c n) = Z.of_nat n.
Proof.
  induction n as [|n IH]; [done|]. simpl. rewrite count_cons, IH.
  destruct (decide (c = c)); [lia|done].
Qed.

Lemma count_repeat_other (c x : ascii) (n : nat) :
  x <> c -> count c (repeat x n) = 0%Z.
Proof.
  intros Hx. induction n as [|n IH]; [done|]. simpl. rewrite count_cons, IH.
  destruct (decide (x = c)); [done|lia].
Qed.

Lemma count_fixed_noop (s : str) :
  (count "(" s <= count ")" s)%Z -> count_fixed s = s.
Proof.
  intros H. unfold count_fixed, times.
  replace (Z.to_nat (count "(" s - count ")" s)) with 0 by lia.
  apply app_nil_r.
Qed.

(** X5. The text of line 99 starts with the input, has the openers of the
    input, and has as many closers as the larger of the input's two
    bracket counts: closers are appended only when some are missing, and
    nothing is ever taken out. *)
Theorem count_fixed_counts (s : str) :
  take (length s) (count_fixed s) = s
  /\ count "(" (count_fixed s) = count "(" s
  /\ count ")" (count_fixed s) = Z.max (count "(" s) (count ")" s).
Proof.
  unfold count_fixed, times. split; [by rewrite take_app_length|].
  rewrite !count_app, count_repeat_same, count_repeat_other by done.
  split; lia.
Qed.

(** X6. On a text that has at least as many closers as openers the repair
    of line 99 changes nothing, so [validate_amr] returns the text itself
    with [True] when the decoder accepts it, and the sentinel with
    [False] when it does not; it never returns a lengthened text. *)
Theorem validate_amr_no_missing_closer
  (decode : str -> res graph) (s : str) :
  (count "(" s <= count ")" s)%Z ->
  ((exists g, decode s = Ret g) /\ validate_amr decode s = Ret (true, s))
  \/ ((exists e, decode s = Raise e)
      /\ validate_amr decode s = Ret (false, sentinel)).
Proof.
  intros H. unfold validate_amr. rewrite (count_fixed_noop s H).
  destruct (decode s) as [g|[]] eqn:E; simpl.
  - left. eauto.
  - right. eauto.
  - right. eauto.
Qed.

Lemma validate_amr_no_missing_closer_witness :
  (count "(" (py "(a / b))") <= count ")" (py "(a / b))"))%Z
  /\ validate_amr (decode_as []) (py "(a / b))") = Ret (true, py "(a / b))").
Proof.
  assert (count "(" (py "(a / b))") <= count ")" (py "(a / b))"))%Z as H
    by (vm_compute; discriminate).
  split; [exact H|].
  destruct (validate_amr_no_missing_closer (decode_as []) _ H)
    as [[_ H']|[[e He] _]]; [exact H'|discriminate He].
Defined.

(** ** More on [remove_duplicate_triples] *)

(** Joining the lines of a text gives the text back. *)
Lemma join_split sep : forall s : str, join sep (split sep s) = s.
Proof.
  induction s as [|c s IH]; [done|]. simpl.
  pose proof (split_nonempty sep s) as Hne.
  destruct (Ascii.eqb c sep) eqn:E.
  - apply Ascii.eqb_eq in E. subst c.
    destruct (split sep s) as [|l ls]; [done|]. simpl in *. by rewrite IH.
  - destruct (split sep s) as [|l ls]; [done|].
    destruct ls as [|l2 ls]; simpl in *; by rewrite <- IH.
Qed.

Lemma sublist_same_length {A : Type} (l1 l2 : list A) :
  l1 `sublist_of` l2 -> length l1 = length l2 -> l1 = l2.
Proof.
  induction 1 as [|x l1 l2 _ IH|x l1 l2 Hsub _]; simpl; intros Hlen.
  - done.
  - f_equal. apply IH. lia.
  - apply sublist_length in Hsub. lia.
Qed.

Lemma remove_duplicate_triples_eq (amr_str : str) :
  remove_duplicate_triples amr_str
  = (join nl (fst (dedup_from ∅ (split nl amr_str))),
     snd (dedup_from ∅ (split nl amr_str))).
Proof.
  unfold remove_duplicate_triples.
  by destruct (dedup_fold (split nl amr_str) ∅ [] 0%Z) as [seen' ->].
Qed.

Lemma kept_lines_split (amr_str : str) :
  split nl (join nl (fst (dedup_from ∅ (split nl amr_str))))
  = fst (dedup_from ∅ (split nl amr_str)).
Proof.
  destruct (dedup_from_spec (split nl amr_str) ∅) as (H1 & _).
  apply split_join.
  - pose proof (split_nonempty nl amr_str) as Hne.
    destruct (split nl amr_str) as [|line rest]; [done|].
    apply dedup_from_first.
  - eapply Forall_sublist_of; [exact H1|apply split_no_sep].
Qed.

(** The loop drops nothing from lines whose triple lines are pairwise
    distinct after [strip()] and not yet seen. *)
Lemma dedup_from_nodup : forall lines seen,
  NoDup (map strip (List.filter is_triple_line lines)) ->
  (forall x, x ∈ map strip (List.filter is_triple_line lines) -> x ∉ seen) ->
  dedup_from seen lines = (lines, 0%Z).
Proof.
  induction lines as [|line rest IH]; intros seen Hnd Hseen; [done|].
  cbn [dedup_from]. unfold is_triple_line in *. simpl in Hnd, Hseen.
  destruct (passes_through line) eqn:Hp; simpl in Hnd, Hseen.
  - by rewrite IH.
  - apply NoDup_cons in Hnd as [Hnew Hnd].
    rewrite bool_decide_eq_false_2.
    + rewrite IH; [done|done|]. intros x Hx.
      rewrite elem_of_union, elem_of_singleton. intros [->|Hs]; [done|].
      apply (Hseen x); [by right|done].
    + apply Hseen. by left.
Qed.

(** X7. [remove_duplicate_triples] reports zero removed lines exactly when
    it returns the text it was given. *)
Theorem remove_duplicate_triples_zero_iff (amr_str : str) :
  snd (remove_duplicate_triples amr_str) = 0%Z
  <-> fst (remove_duplicate_triples amr_str) = amr_str.
Proof.
  rewrite remove_duplicate_triples_eq. cbn [fst snd].
  destruct (dedup_from_spec (split nl amr_str) ∅) as (H1 & _ & _ & _ & H5).
  split.
  - intros H0. rewrite (sublist_same_length _ _ H1) by lia.
    apply join_split.
  - intros Hj. rewrite H5. apply (f_equal (split nl)) in Hj.
    rewrite kept_lines_split in Hj. rewrite Hj. lia.
Qed.

(** X8. [remove_duplicate_triples] is idempotent: on its own output it
    returns that output and reports zero removed lines. *)
Theorem remove_duplicate_triples_idempotent (amr_str : str) :
  remove_duplicate_triples (fst (remove_duplicate_triples amr_str))
  = (fst (remove_duplicate_triples amr_str), 0%Z).
Proof.
  rewrite (remove_duplicate_triples_eq amr_str). cbn [fst].
  rewrite remove_duplicate_triples_eq, kept_lines_split.
  destruct (dedup_from_spec (split nl amr_str) ∅) as (_ & _ & H3 & _).
  rewrite dedup_from_nodup; [done|done|]. intros x _. apply not_elem_of_empty.
Qed.

Lemma dedup_from_keeps : forall lines seen x,
  x ∈ map strip (List.filter is_triple_line lines) ->
  x ∈ seen
  \/ x ∈ map strip (List.filter is_triple_line (fst (dedup_from seen lines))).
Proof.
  induction lines as [|line rest IH]; intros seen x; [by right|].
  cbn [dedup_from]. unfold is_triple_line in *. simpl.
  destruct (passes_through line) eqn:Hp; simpl.
  - intros Hx. destruct (IH seen x Hx) as [?|Hk]; [by left|right].
    destruct (dedup_from seen rest) as [kept n]. simpl in *. by rewrite Hp.
  - rewrite elem_of_cons. destruct (bool_decide (strip line ∈ seen)) eqn:Hs.
    + apply bool_decide_eq_true in Hs. intros [->|Hx]; [by left|].
      destruct (IH seen x Hx) as [?|Hk]; [by left|right].
      by destruct (dedup_from seen rest) as [kept n].
    + intros [->|Hx].
      * right. destruct (dedup_from ({[strip line]} ∪ seen) rest) as [kept n].
        simpl. rewrite Hp. simpl. by left.
      * destruct (IH ({[strip line]} ∪ seen) x Hx) as [Hin|Hk].
        -- apply elem_of_union in Hin as [Hin|Hin]; [|by left].
           apply elem_of_singleton in Hin. subst x. right.
           destruct (dedup_from ({[strip line]} ∪ seen) rest) as [kept n].
           simpl. rewrite Hp. simpl. by left.
        -- right.
           destruct (dedup_from ({[strip line]} ∪ seen) rest) as [kept n].
           simpl in *. rewrite Hp. simpl. by right.
Qed.

Lemma sublist_triple_strips (l1 l2 : list str) (x : str) :
  l1 `sublist_of` l2 ->
  x ∈ map strip (List.filter is_triple_line l1) ->
  x ∈ map strip (List.filter is_triple_line l2).
Proof.
  induction 1 as [|y l1 l2 _ IH|y l1 l2 _ IH]; simpl; [done| |].
  - destruct (is_triple_line y); simpl; [|done].
    rewrite !elem_of_cons. intros [->|Hx]; auto.
  - intros Hx. destruct (is_triple_line y); simpl; [right|]; auto.
Qed.

(** X9. [remove_duplicate_triples] loses no triple: a text is the
    [strip()] of a non-blank, non-comment line of the input exactly when
    it is the [strip()] of such a line of the output. *)
Theorem remove_duplicate_triples_keeps_triples (amr_str x : str) :
  x ∈ map strip (List.filter is_triple_line (split nl amr_str))
  <-> x ∈ map strip
            (List.filter is_triple_line
               (split nl (fst (remove_duplicate_triples amr_str)))).
Proof.
  rewrite remove_duplicate_triples_eq. cbn [fst].
  rewrite kept_lines_split. split.
  - intros Hx. destruct (dedup_from_keeps _ ∅ x Hx) as [Hin|Hk]; [|done].
    by apply not_elem_of_empty in Hin.
  - apply sublist_triple_strips.
    by destruct (dedup_from_spec (split nl amr_str) ∅) as (H1 & _).
Qed.

(** * Further properties of [amr_validation.py] *)

Lemma split_blank_nonempty (s : str) : split_blank s <> [].
Proof.
  destruct s as [|c s]; simpl; [done|].
  destruct (Ascii.eqb c nl); [destruct s as [|c' s]|];
    try destruct (Ascii.eqb c' nl); try done;
    by destruct (split_blank _).
Qed.

Lemma failed_items_length (decode : str -> res graph)
  (iter_error : graph -> option exn) (read_error : triple -> option exn) :
  forall content idx,
    length (failed_items decode iter_error read_error idx content)
    = length (List.filter (item_fails decode iter_error read_error) content).
Proof.
  induction content as [|a content IH]; intros idx; [done|]. simpl.
  rewrite length_app, IH.
  by destruct (item_fails decode iter_error read_error a).
Qed.

Lemma items_three_kinds (decode : str -> res graph) : forall content,
  length content
  = length (List.filter item_blank content)
    + length (List.filter (item_decodes decode) content)
    + length (List.filter (item_rejected decode) content).
Proof.
  induction content as [|a content IH]; [done|]. simpl.
  unfold item_blank, item_decodes, item_rejected in *.
  destruct (bool_decide (strip a = [])); simpl; [lia|].
  destruct (decode (strip a)); simpl; lia.
Qed.

(** The failing items are those that the decoder rejects and those that
    decode and raise afterwards. *)
Lemma items_fail_two_ways (decode : str -> res graph)
  (iter_error : graph -> option exn) (read_error : triple -> option exn) :
  forall content,
    length (List.filter (item_fails decode iter_error read_error) content)
    = length (List.filter (item_rejected decode) content)
      + length (List.filter
                  (fun amr_str =>
                     item_decodes decode amr_str
                     && item_fails decode iter_error read_error amr_str)
                  content).
Proof.
  induction content as [|a content IH]; [done|]. simpl.
  unfold item_decodes, item_rejected, item_fails in *.
  destruct (bool_decide (strip a = [])); simpl; [lia|].
  destruct (decode (strip a)) as [g|e]; simpl; [|lia].
  destruct (raises_after_decode iter_error read_error g); simpl; lia.
Qed.

(** X10. [analyze_amr_file] always reports at least one graph, also for
    an empty file, so that the percentage of line 66 never divides by
    zero.  The total is the number of valid graphs plus the number of
    blocks that the decoder rejects plus the number of blank blocks, so
    that the "invalid" figure [total - valid] of line 67 counts the blank
    blocks too.  The recorded errors are the blocks that the decoder
    rejects and the blocks that decode, are counted valid, and raise
    afterwards inside the [try]. *)
Theorem analyze_totals (decode : str -> res graph)
  (iter_error : graph -> option exn) (read_error : triple -> option exn)
  (text : str) :
  (1 <= fst (fst (fst (analyze_amr_file decode iter_error read_error text))))%Z
  /\ fst (fst (fst (analyze_amr_file decode iter_error read_error text)))
     = (snd (fst (fst (analyze_amr_file decode iter_error read_error text)))
        + Z.of_nat (length (List.filter (item_rejected decode)
                              (split_blank text)))
        + Z.of_nat (length (List.filter item_blank (split_blank text))))%Z
  /\ length (snd (analyze_amr_file decode iter_error read_error text))
     = length (List.filter (item_rejected decode) (split_blank text))
       + length (List.filter
                   (fun amr_str =>
                      item_decodes decode amr_str
                      && item_fails decode iter_error read_error amr_str)
                   (split_blank text)).
Proof.
  unfold analyze_amr_file. cbn [fst snd].
  destruct (analyze_loop_spec decode iter_error read_error ([], [], [])
              (split_blank text) 0%Z analysis_start) as (_ & -> & ->).
  simpl. rewrite failed_items_length, items_fail_two_ways.
  pose proof (items_three_kinds decode (split_blank text)) as H3.
  pose proof (split_blank_nonempty text) as Hne.
  destruct (split_blank text) as [|a content]; [done|]. simpl in *.
  split; [lia|]. split; [lia|done].
Qed.

Lemma failed_items_elem (decode : str -> res graph)
  (iter_error : graph -> option exn) (read_error : triple -> option exn) :
  forall content idx i,
    i ∈ failed_items decode iter_error read_error idx content
    <-> exists n amr_str,
          i = (idx + Z.of_nat n + 1)%Z /\ content !! n = Some amr_str
          /\ item_fails decode iter_error read_error amr_str = true.
Proof.
  induction content as [|a content IH]; intros idx i.
  - simpl. split; [by intros ?%elem_of_nil|]. by intros (n & x & _ & ? & _).
  - cbn [failed_items]. rewrite elem_of_app, IH. split.
    + intros [Hi|(n & x & -> & Hn & Hx)].
      * destruct (item_fails decode iter_error read_error a) eqn:Ha;
          [|by apply elem_of_nil in Hi].
        apply list_elem_of_singleton in Hi. exists 0, a.
        split; [lia|done].
      * exists (S n), x. split; [lia|done].
    + intros ([|n] & x & -> & Hn & Hx).
      * left. simpl in Hn. injection Hn as ->. rewrite Hx.
        apply list_elem_of_singleton. lia.
      * right. exists n, x. split; [lia|done].
Qed.

Lemma failed_items_sorted (decode : str -> res graph)
  (iter_error : graph -> option exn) (read_error : triple -> option exn) :
  forall content idx,
    StronglySorted Z.lt (failed_items decode iter_error read_error idx content).
Proof.
  induction content as [|a content IH]; intros idx; [constructor|].
  cbn [failed_items].
  destruct (item_fails decode iter_error read_error a); simpl; [|apply IH].
  constructor; [apply IH|]. apply Forall_forall. intros i Hi.
  apply failed_items_elem in Hi as (n & x & -> & _). lia.
Qed.

(** X11. The error list of [analyze_amr_file] holds exactly the 1-based
    positions of the non-blank blocks for which something inside the
    [try] raises (the decoder, the iteration over the triples of the
    decoded graph, or the reading of one of its triples), in increasing
    order and without repeats. *)
Theorem analyze_error_positions
  (decode : str -> res graph) (iter_error : graph -> option exn)
  (read_error : triple -> option exn) (text : str) (i : Z) :
  StronglySorted Z.lt (snd (analyze_amr_file decode iter_error read_error text))
  /\ (i ∈ snd (analyze_amr_file decode iter_error read_error text)
      <-> exists n amr_str,
            i = (Z.of_nat n + 1)%Z /\ split_blank text !! n = Some amr_str
            /\ strip amr_str <> []
            /\ match decode (strip amr_str) with
               | Raise _ => True
               | Ret g =>
                   is_Some (iter_error g)
                   \/ exists t, t ∈ triples g /\ is_Some (read_error t)
               end).
Proof.
  unfold analyze_amr_file. cbn [snd].
  destruct (analyze_loop_spec decode iter_error read_error ([], [], [])
              (split_blank text) 0%Z analysis_start) as (_ & _ & ->).
  simpl. split; [apply failed_items_sorted|].
  rewrite failed_items_elem.
  assert (forall amr_str,
             item_fails decode iter_error read_error amr_str = true
             <-> strip amr_str <> []
                 /\ match decode (strip amr_str) with
                    | Raise _ => True
                    | Ret g =>
                        is_Some (iter_error g)
                        \/ exists t, t ∈ triples g /\ is_Some (read_error t)
                    end) as Hfails.
  { intros a. unfold item_fails, raises_after_decode.
    rewrite andb_true_iff, negb_true_iff, bool_decide_eq_false.
    apply and_iff_compat_l.
    destruct (decode (strip a)) as [g|e]; [|done].
    destruct (iter_error g) as [e|].
    - split; [intros _; left; by eexists|done].
    - rewrite existsb_exists. split.
      + intros (t & Ht & Hr). right. exists t.
        split; [by apply list_elem_of_In|].
        destruct (read_error t); [by eexists|done].
      + intros [[e He]|(t & Ht & [e He])]; [done|].
        exists t. split; [by apply list_elem_of_In|]. by rewrite He. }
  split.
  - intros (n & x & -> & Hn & Hx). apply Hfails in Hx as [Hx1 Hx2].
    exists n, x. split; [lia|done].
  - intros (n & x & -> & Hn & Hx1 & Hx2). exists n, x.
    split; [lia|]. split; [done|]. by apply Hfails.
Qed.

Lemma occurrences_NoDup (k : triple) (ts : list triple) :
  NoDup ts -> (occurrences k ts <= 1)%Z.
Proof.
  induction 1 as [|t ts Hnotin _ IH].
  - unfold occurrences. simpl. lia.
  - rewrite occurrences_cons. destruct (decide (t = k)) as [->|]; [|lia].
    assert (occurrences k ts = 0%Z) as ->; [|lia].
    unfold occurrences.
    destruct (filter (fun t => t = k) ts) as [|x l] eqn:E; [done|].
    assert (x ∈ filter (fun t => t = k) ts) as Hx by (rewrite E; by left).
    apply list_elem_of_filter in Hx as [-> Hx]. done.
Qed.

(** X12. Where the decoder never returns a graph that lists a triple
    twice, [analyze_amr_file] reports zero duplicate triples, however many
    graphs of the file share a triple, and whether or not the triples can
    be read. *)
Theorem analyze_no_repeat_no_duplicates
  (decode : str -> res graph) (iter_error : graph -> option exn)
  (read_error : triple -> option exn) (text : str) :
  (forall s g, decode s = Ret g -> NoDup (triples g)) ->
  snd (fst (analyze_amr_file decode iter_error read_error text)) = 0%Z.
Proof.
  intros Hnd. apply cross_duplicates_zero. intros k.
  induction (split_blank text) as [|a content IH]; [done|].
  unfold total_repeats in *. cbn [map foldr].
  assert (item_repeats decode iter_error read_error k a = 0%Z) as ->; [|lia].
  unfold item_repeats. destruct (bool_decide (strip a = [])); [done|].
  destruct (decode (strip a)) as [g|e] eqn:Eg; [|done].
  pose proof (occurrences_NoDup k _ (Hnd _ _ Eg)).
  pose proof (repeats_processed_triples iter_error read_error k g).
  unfold repeats in *. lia.
Qed.

Lemma analyze_no_repeat_no_duplicates_witness :
  (forall s g, decode_as [(py "a", py ":instance", py "b")] s = Ret g ->
               NoDup (triples g))
  /\ snd (fst (analyze_amr_file
                 (decode_as [(py "a", py ":instance", py "b")])
                 no_error no_error
                 (py "(a / b)" ++ [nl; nl] ++ py "(a / b)"))) = 0%Z.
Proof.
  assert (forall s g, decode_as [(py "a", py ":instance", py "b")] s = Ret g ->
                      NoDup (triples g)) as H.
  { intros s g [= <-]. simpl. apply NoDup_singleton. }
  split; [exact H|]. by apply analyze_no_repeat_no_duplicates.
Defined.

(** * [process_csv] as a whole *)

Lemma run_rows_for_each {S A : Type} (body : S -> A -> res S) :
  forall items st st',
    for_each body items st = Ret st' -> run_rows body items st = (st', None).
Proof.
  induction items as [|a items IH]; intros st st'; simpl.
  - by intros [= ->].
  - destruct (body st a) as [st1|e]; simpl; [apply IH|discriminate].
Qed.

(** The loop over the rows of a column never raises. *)
Lemma run_rows_column (decode : str -> res graph) (df : dataframe)
  (col : list ascii) :
  exists st,
    run_rows (process_row decode) (map (fun row => row col) (df_rows df))
      column_start = (st, None)
    /\ concat (written st) = column_file df col
    /\ valid_count st = Z.of_nat (length (df_rows df))
    /\ invalid_count st = 0%Z.
Proof.
  eexists. split.
  - apply run_rows_for_each, process_rows_run.
  - simpl. rewrite length_map. unfold column_file, row_output.
    rewrite map_map. split; [done|]. split; [lia|done].
Qed.

Lemma process_csv_both_columns (decode : str -> res graph) (df : dataframe) :
  py "amr_graph" ∈ df_columns df -> py "generated_amr" ∈ df_columns df ->
  exists d1 d2,
    process_columns decode df amr_columns ∅ []
    = (<[py "generated_amr.txt" := column_file df (py "generated_amr")]>
         (<[py "amr_graph.txt" := column_file df (py "amr_graph")]> ∅),
       inr [(py "amr_graph",
             {| stat_total := Z.of_nat (length (df_rows df));
                stat_valid := Z.of_nat (length (df_rows df));
                stat_invalid := 0; stat_duplicates_removed := d1 |});
            (py "generated_amr",
             {| stat_total := Z.of_nat (length (df_rows df));
                stat_valid := Z.of_nat (length (df_rows df));
                stat_invalid := 0; stat_duplicates_removed := d2 |})]).
Proof.
  intros H1 H2.
  destruct (run_rows_column decode df (py "amr_graph"))
    as (st1 & E1 & Hf1 & Hv1 & Hi1).
  destruct (run_rows_column decode df (py "generated_amr"))
    as (st2 & E2 & Hf2 & Hv2 & Hi2).
  exists (total_duplicates st1), (total_duplicates st2).
  unfold amr_columns. cbn [process_columns].
  rewrite (bool_decide_eq_true_2 _ H1). rewrite E1.
  rewrite (bool_decide_eq_true_2 _ H2). rewrite E2.
  by rewrite Hf1, Hf2, Hv1, Hv2, Hi1, Hi2.
Qed.

Lemma process_csv_first_missing (decode : str -> res graph) (df : dataframe) :
  py "amr_graph" ∉ df_columns df ->
  process_columns decode df amr_columns ∅ []
  = (∅, inl (ValueError (py "amr_graph"))).
Proof.
  intros H1. unfold amr_columns. cbn [process_columns].
  by rewrite (bool_decide_eq_false_2 _ H1).
Qed.

Lemma process_csv_second_missing (decode : str -> res graph) (df : dataframe) :
  py "amr_graph" ∈ df_columns df -> py "generated_amr" ∉ df_columns df ->
  process_columns decode df amr_columns ∅ []
  = (<[py "amr_graph.txt" := column_file df (py "amr_graph")]> ∅,
     inl (ValueError (py "generated_amr"))).
Proof.
  intros H1 H2.
  destruct (run_rows_column decode df (py "amr_graph")) as (st1 & E1 & Hf1 & _).
  unfold amr_columns. cbn [process_columns].
  rewrite (bool_decide_eq_true_2 _ H1). rewrite E1.
  rewrite (bool_decide_eq_false_2 _ H2). by rewrite Hf1.
Qed.

(** X13. Where [pd.read_csv] and [os.makedirs] go through, the script
    ends with status 0 exactly when the input file exists, the frame has
    both columns [amr_graph] and [generated_amr], and it has at least one
    row; in every other case it ends with status 1. *)
Theorem main_exit_code_zero
  (decode : str -> res graph) (input : option dataframe) :
  (main_exit_code decode input = 0%Z \/ main_exit_code decode input = 1%Z)
  /\ (main_exit_code decode input = 0%Z
      <-> exists df, input = Some df
                     /\ py "amr_graph" ∈ df_columns df
                     /\ py "generated_amr" ∈ df_columns df
                     /\ df_rows df <> []).
Proof.
  split.
  { unfold main_exit_code. destruct (snd _); auto. }
  unfold main_exit_code, process_csv. destruct input as [df|].
  2: { split; [done|]. by intros (df & ? & _). }
  destruct (decide (py "amr_graph" ∈ df_columns df)) as [H1|H1].
  2: { rewrite (process_csv_first_missing decode df H1). cbn [snd].
       split; [done|]. intros (df' & [= <-] & ? & _). done. }
  destruct (decide (py "generated_amr" ∈ df_columns df)) as [H2|H2].
  2: { rewrite (process_csv_second_missing decode df H1 H2). cbn [snd].
       split; [done|]. intros (df' & [= <-] & _ & ? & _). done. }
  destruct (process_csv_both_columns decode df H1 H2) as (d1 & d2 & ->).
  cbn [report stat_total]. destruct (df_rows df) as [|row rows] eqn:Hrows.
  - cbn. split; [done|]. intros (df' & [= <-] & _ & _ & Hne).
    by rewrite Hrows in Hne.
  - rewrite !bool_decide_eq_false_2 by (simpl; lia). cbn [snd].
    split; [|done]. intros _. exists df. by rewrite Hrows.
Qed.

(** X14. For a frame with both columns and at least one row,
    [process_csv] raises nothing, writes the two files
    [amr_graph.txt] and [generated_amr.txt], each holding for every row
    in order the cleaned text without its duplicate lines followed by a
    blank line, and gives both columns as many valid AMRs as rows and no
    invalid one. *)
Theorem process_csv_success (decode : str -> res graph) (df : dataframe) :
  py "amr_graph" ∈ df_columns df -> py "generated_amr" ∈ df_columns df ->
  df_rows df <> [] ->
  exists d1 d2,
    process_csv decode (Some df)
    = (<[py "generated_amr.txt" := column_file df (py "generated_amr")]>
         (<[py "amr_graph.txt" := column_file df (py "amr_graph")]> ∅),
       inr [(py "amr_graph",
             {| stat_total := Z.of_nat (length (df_rows df));
                stat_valid := Z.of_nat (length (df_rows df));
                stat_invalid := 0; stat_duplicates_removed := d1 |});
            (py "generated_amr",
             {| stat_total := Z.of_nat (length (df_rows df));
                stat_valid := Z.of_nat (length (df_rows df));
                stat_invalid := 0; stat_duplicates_removed := d2 |})]).
Proof.
  intros H1 H2 Hrows. unfold process_csv.
  destruct (process_csv_both_columns decode df H1 H2) as (d1 & d2 & ->).
  exists d1, d2. cbn [report stat_total].
  destruct (df_rows df) as [|row rows]; [done|].
  by rewrite !bool_decide_eq_false_2 by (simpl; lia).
Qed.

Lemma process_csv_success_witness :
  exists d1 d2,
    process_csv (decode_as []) (Some (frame_of amr_columns [py "(a / b"]))
    = (<[py "generated_amr.txt" :=
           column_file (frame_of amr_columns [py "(a / b"]) (py "generated_amr")]>
         (<[py "amr_graph.txt" :=
              column_file (frame_of amr_columns [py "(a / b"]) (py "amr_graph")]>
            ∅),
       inr [(py "amr_graph",
             {| stat_total := 1; stat_valid := 1;
                stat_invalid := 0; stat_duplicates_removed := d1 |});
            (py "generated_amr",
             {| stat_total := 1; stat_valid := 1;
                stat_invalid := 0; stat_duplicates_removed := d2 |})]).
Proof.
  apply (process_csv_success (decode_as [])
           (frame_of amr_columns [py "(a / b"])).
  - by left.
  - right. by left.
  - done.
Defined.

(** X15. For a frame with both columns and no row, [process_csv] first
    creates both output files, empty, and then raises
    [ZeroDivisionError] in the report. *)
Theorem process_csv_no_rows (decode : str -> res graph) (df : dataframe) :
  py "amr_graph" ∈ df_columns df -> py "generated_amr" ∈ df_columns df ->
  df_rows df = [] ->
  process_csv decode (Some df)
  = (<[py "generated_amr.txt" := []]> (<[py "amr_graph.txt" := []]> ∅),
     inl ZeroDivisionError).
Proof.
  intros H1 H2 Hrows. unfold process_csv.
  destruct (process_csv_both_columns decode df H1 H2) as (d1 & d2 & ->).
  unfold column_file. rewrite Hrows. done.
Qed.

Lemma process_csv_no_rows_witness :
  process_csv (decode_as []) (Some (frame_of amr_columns []))
  = (<[py "generated_amr.txt" := []]> (<[py "amr_graph.txt" := []]> ∅),
     inl ZeroDivisionError).
Proof.
  apply (process_csv_no_rows (decode_as []) (frame_of amr_columns [])).
  - by left.
  - right. by left.
  - done.
Defined.

(** X16. A missing column makes [process_csv] raise [ValueError]: before
    anything is written when [amr_graph] is missing, and after the whole
    file [amr_graph.txt] has been written when only [generated_amr] is
    missing. *)
Theorem process_csv_missing_column
  (decode : str -> res graph) (df : dataframe) :
  (py "amr_graph" ∉ df_columns df ->
   process_csv decode (Some df) = (∅, inl (ValueError (py "amr_graph"))))
  /\ (py "amr_graph" ∈ df_columns df ->
      py "generated_amr" ∉ df_columns df ->
      process_csv decode (Some df)
      = (<[py "amr_graph.txt" := column_file df (py "amr_graph")]> ∅,
         inl (ValueError (py "generated_amr")))).
Proof.
  split.
  - intros H1. unfold process_csv.
    by rewrite (process_csv_first_missing decode df H1).
  - intros H1 H2. unfold process_csv.
    by rewrite (process_csv_second_missing decode df H1 H2).
Qed.

Lemma process_csv_missing_column_witness :
  process_csv (decode_as [])
    (Some (frame_of [py "amr_graph"] [py "(a / b"]))
  = (<[py "amr_graph.txt" :=
         column_file (frame_of [py "amr_graph"] [py "(a / b"]) (py "amr_graph")]>
       ∅,
     inl (ValueError (py "generated_amr"))).
Proof.
  apply (proj2 (process_csv_missing_column (decode_as [])
                  (frame_of [py "amr_graph"] [py "(a / b"]))).
  - by left.
  - intros H. apply list_elem_of_singleton in H. discriminate H.
Defined.

(** * Further properties of [reentrancies.py] *)

(** ** [get_reentrant_triples] *)

Lemma reentrant_fold : forall ts node_labels acc,
  snd (fold_left reentrant_step ts (node_labels, acc))
  = acc ++ reentrant_from node_labels ts.
Proof.
  induction ts as [|[[s r] tg] ts IH]; intros node_labels acc.
  - simpl. by rewrite app_nil_r.
  - cbn [fold_left reentrant_step reentrant_from].
    destruct (bool_decide (r = py ":instance")); [apply IH|].
    destruct (bool_decide (tg ∈ node_labels)); [|apply IH].
    rewrite IH. by rewrite <- app_assoc.
Qed.

Lemma reentrant_from_elem : forall ts node_labels t,
  t ∈ reentrant_from node_labels ts
  <-> exists pre post,
        ts = pre ++ t :: post
        /\ snd (fst t) <> py ":instance"
        /\ (snd t ∈ node_labels \/ snd t ∈ instance_sources pre).
Proof.
  induction ts as [|[[s r] tg] ts IH]; intros node_labels t.
  - simpl. split; [by intros ?%elem_of_nil|].
    intros (pre & post & H & _). by destruct pre.
  - cbn [reentrant_from].
    destruct (bool_decide (r = py ":instance")) eqn:Er.
    + apply bool_decide_eq_true in Er. subst r. rewrite IH. split.
      * intros (pre & post & -> & Hr & Ht).
        exists ((s, py ":instance", tg) :: pre), post.
        split; [done|]. split; [done|].
        unfold instance_sources. simpl.
        rewrite elem_of_union, elem_of_singleton in Ht.
        destruct Ht as [[->|Ht]|Ht]; [right; by left|by left|].
        right. by right.
      * intros (pre & post & Hts & Hr & Ht).
        destruct pre as [|p pre]; simpl in Hts.
        -- injection Hts as <- _. done.
        -- injection Hts as <- ->. exists pre, post.
           split; [done|]. split; [done|].
           unfold instance_sources in Ht. simpl in Ht.
           rewrite elem_of_union, elem_of_singleton.
           destruct Ht as [Ht|Ht]; [by left; right|].
           apply elem_of_cons in Ht as [->|Ht]; [by left; left|by right].
    + apply bool_decide_eq_false in Er.
      assert (forall pre, instance_sources ((s, r, tg) :: pre)
                          = instance_sources pre) as Hsrc.
      { intros pre. unfold instance_sources. simpl.
        by rewrite (bool_decide_eq_false_2 _ Er). }
      assert (t ∈ reentrant_from node_labels ts
              <-> exists pre post,
                    (s, r, tg) :: ts = pre ++ t :: post
                    /\ pre <> []
                    /\ snd (fst t) <> py ":instance"
                    /\ (snd t ∈ node_labels \/ snd t ∈ instance_sources pre))
        as Htail.
      { rewrite IH. split.
        - intros (pre & post & -> & Hr & Ht).
          exists ((s, r, tg) :: pre), post. rewrite Hsrc. done.
        - intros (pre & post & Hts & Hne & Hr & Ht).
          destruct pre as [|p pre]; [done|]. simpl in Hts.
          injection Hts as <- ->. rewrite Hsrc in Ht. eauto. }
      destruct (bool_decide (tg ∈ node_labels)) eqn:Et.
      * apply bool_decide_eq_true in Et. rewrite elem_of_cons, Htail. split.
        -- intros [->|(pre & post & ? & _ & ? & ?)]; [|eauto].
           exists [], ts. split; [done|]. split; [done|]. by left.
        -- intros (pre & post & Hts & Hr & Ht).
           destruct pre as [|p pre]; [left; by injection Hts|right].
           exists (p :: pre), post. done.
      * apply bool_decide_eq_false in Et. rewrite Htail. split.
        -- intros (pre & post & ? & _ & ? & ?). eauto.
        -- intros (pre & post & Hts & Hr & Ht).
           destruct pre as [|p pre]; [|exists (p :: pre), post; done].
           injection Hts as <- _. simpl in *.
           destruct Ht as [Ht|Ht]; [done|]. by apply elem_of_nil in Ht.
Qed.

Lemma reentrant_from_sublist : forall ts node_labels,
  reentrant_from node_labels ts `sublist_of` ts.
Proof.
  induction ts as [|[[s r] tg] ts IH]; intros node_labels; [constructor|].
  cbn [reentrant_from].
  destruct (bool_decide (r = py ":instance")); [by constructor|].
  destruct (bool_decide (tg ∈ node_labels)); by constructor.
Qed.

(** X17. When the tree decoder returns a graph, [get_reentrant_triples]
    returns a subsequence of its triples, and a triple is in it exactly
    when it stands at a place of the list where its role is not
    [:instance] and its target is the source of an [:instance] triple
    that comes earlier in the list: a reference to a node that is only
    defined later is not reported. *)
Theorem get_reentrant_triples_spec
  (decode_tree : str -> res graph) (amr_string : str) (g : graph)
  (t : triple) :
  decode_tree amr_string = Ret g ->
  exists reentrant,
    get_reentrant_triples decode_tree amr_string = Ret reentrant
    /\ reentrant `sublist_of` triples g
    /\ (t ∈ reentrant
        <-> exists pre post,
              triples g = pre ++ t :: post
              /\ snd (fst t) <> py ":instance"
              /\ snd t ∈ instance_sources pre).
Proof.
  intros Hg. unfold get_reentrant_triples. rewrite Hg. cbn [bind].
  eexists. split; [done|]. rewrite reentrant_fold. cbn [app].
  split; [apply reentrant_from_sublist|]. rewrite reentrant_from_elem.
  split.
  - intros (pre & post & H1 & H2 & [H3|H3]); [|eauto].
    by apply not_elem_of_empty in H3.
  - intros (pre & post & H1 & H2 & H3). eauto 10.
Qed.

Lemma get_reentrant_triples_spec_witness :
  exists reentrant,
    get_reentrant_triples
      (decode_as [(py "a", py ":instance", py "want");
                  (py "b", py ":instance", py "boy");
                  (py "b", py ":ARG0", py "a")])
      (py "(a / want :ARG1 (b / boy :ARG0 a))") = Ret reentrant
    /\ reentrant `sublist_of`
         [(py "a", py ":instance", py "want");
          (py "b", py ":instance", py "boy");
          (py "b", py ":ARG0", py "a")]
    /\ ((py "b", py ":ARG0", py "a") ∈ reentrant
        <-> exists pre post,
              [(py "a", py ":instance", py "want");
               (py "b", py ":instance", py "boy");
               (py "b", py ":ARG0", py "a")] = pre ++ (py "b", py ":ARG0", py "a") :: post
              /\ py ":ARG0" <> py ":instance"
              /\ py "a" ∈ instance_sources pre).
Proof.
  apply (get_reentrant_triples_spec
           (decode_as [(py "a", py ":instance", py "want");
                       (py "b", py ":instance", py "boy");
                       (py "b", py ":ARG0", py "a")])
           (py "(a / want :ARG1 (b / boy :ARG0 a))")
           {| triples := [(py "a", py ":instance", py "want");
                          (py "b", py ":instance", py "boy");
                          (py "b", py ":ARG0", py "a")] |}
           (py "b", py ":ARG0", py "a")).
  reflexivity.
Defined.

(** ** [get_amr_string] *)

Lemma plus_cons {R : Type} (p : ascii -> bool) (k : @cont R) (acc : str)
  (x : ascii) (s : str) :
  plus p k acc (x :: s)
  = if p x then
      match plus p k (acc ++ [x]) s with
      | Some r => Some r
      | None => k (acc ++ [x]) s
      end
    else None.
Proof. done. Qed.

Lemma spaces_match_hit : forall (s acc : str),
  plus (Ascii.eqb " ") (fun _ rest => Some ([" "], rest)) acc (" " :: s)
  = Some ([" "], skip_spaces s).
Proof.
  induction s as [|c s IH]; intros acc; [done|].
  rewrite plus_cons. change (Ascii.eqb " " " ") with true. cbv iota.
  cbn [skip_spaces]. destruct (Ascii.eqb " " c) eqn:E.
  - apply Ascii.eqb_eq in E. subst c. by rewrite IH.
  - rewrite plus_cons. by rewrite E.
Qed.

Lemma spaces_match_miss (c : ascii) (s : str) :
  c <> " " -> spaces_match (c :: s) = None.
Proof.
  intros Hc. unfold spaces_match. cbn [plus].
  by rewrite (eqb_false_of_ne " " c) by done.
Qed.

Lemma spaces_match_some (s repl rest : str) :
  spaces_match s = Some (repl, rest) ->
  exists s', s = " " :: s' /\ repl = [" "] /\ rest = skip_spaces s'.
Proof.
  destruct s as [|c s]; [done|]. destruct (decide (c = " ")) as [->|Hc].
  - unfold spaces_match. rewrite spaces_match_hit. intros [= <- <-]. eauto.
  - by rewrite spaces_match_miss.
Qed.

Lemma skip_spaces_length (s : str) : length (skip_spaces s) <= length s.
Proof.
  induction s as [|c s IH]; [done|]. cbn [skip_spaces].
  destruct (Ascii.eqb " " c); cbn [length]; lia.
Qed.

Lemma skip_spaces_head (s : str) :
  match skip_spaces s with [] => True | c :: _ => c <> " " end.
Proof.
  induction s as [|c s IH]; [done|]. cbn [skip_spaces].
  destruct (Ascii.eqb " " c) eqn:E; [done|].
  apply Ascii.eqb_neq in E. done.
Qed.

Lemma skip_spaces_elem (s : str) (c : ascii) : c ∈ skip_spaces s -> c ∈ s.
Proof.
  induction s as [|x s IH]; [done|]. cbn [skip_spaces].
  destruct (Ascii.eqb " " x); [|done]. intros H. right. auto.
Qed.

Lemma spaces_match_consuming : consuming spaces_match.
Proof.
  intros s repl rest H. apply spaces_match_some in H as (s' & -> & _ & ->).
  pose proof (skip_spaces_length s'). simpl. lia.
Qed.

Lemma has_infix_cons (p : str) (c : ascii) (s : str) :
  has_infix p (c :: s) = startswith p (c :: s) || has_infix p s.
Proof. done. Qed.

(** What [re.sub(' +', ' ', s)] returns has no two spaces in a row, starts
    with a space only where [s] does, and holds only characters of [s]. *)
Lemma collapse_spaces_spec (s : str) :
  has_infix [" "; " "] (re_sub spaces_match s) = false
  /\ (head_is_space (re_sub spaces_match s) = true -> head_is_space s = true)
  /\ (forall c, c ∈ re_sub spaces_match s -> c ∈ s).
Proof.
  apply (re_sub_ind spaces_match spaces_match_consuming
           (fun s out =>
              has_infix [" "; " "] out = false
              /\ (head_is_space out = true -> head_is_space s = true)
              /\ (forall c, c ∈ out -> c ∈ s))).
  - done.
  - intros c t Hm (H1 & H2 & H3). split; [|split; [done|]].
    + rewrite has_infix_cons, H1. rewrite orb_false_r.
      destruct (decide (c = " ")) as [->|Hc].
      * unfold spaces_match in Hm. by rewrite spaces_match_hit in Hm.
      * cbn [startswith]. by rewrite (eqb_false_of_ne " " c) by done.
    + intros x. rewrite !elem_of_cons. intros [->|Hx]; auto.
  - intros t repl rest Hm (H1 & H2 & H3).
    apply spaces_match_some in Hm as (s' & -> & -> & ->).
    split; [|split; [done|]].
    + cbn [app]. rewrite has_infix_cons, H1, orb_false_r.
      cbn [startswith]. change (Ascii.eqb " " " ") with true. cbv iota.
      pose proof (skip_spaces_head s') as Hh.
      destruct (re_sub spaces_match (skip_spaces s')) as [|y out] eqn:E;
        [done|].
      cbn [startswith]. rewrite andb_true_r.
      destruct (Ascii.eqb " " y) eqn:Ey; [exfalso|done].
      destruct (skip_spaces s') as [|x r]; [discriminate (H2 Ey)|].
      specialize (H2 Ey). cbn [head_is_space] in H2.
      apply Ascii.eqb_eq in H2. by subst x.
    + intros x. cbn [app]. rewrite !elem_of_cons. intros [->|Hx]; [by left|].
      right. by apply skip_spaces_elem, H3.
Qed.

Lemma lstrip_elem (s : str) (c : ascii) : c ∈ lstrip s -> c ∈ s.
Proof.
  induction s as [|x s IH]; simpl; [done|].
  destruct (is_space x); [|done]. intros H. right. auto.
Qed.

Lemma strip_elem (s : str) (c : ascii) : c ∈ strip s -> c ∈ s.
Proof.
  unfold strip, rstrip. intros H.
  apply list_elem_of_In, in_rev, list_elem_of_In, lstrip_elem in H.
  apply list_elem_of_In, in_rev, list_elem_of_In in H.
  by apply lstrip_elem.
Qed.

Lemma enumerate_filter_elem {A : Type} (f : nat * A -> bool) (l : list A) (x : A) :
  x ∈ map snd (List.filter f (enumerate l)) -> x ∈ l.
Proof.
  rewrite !list_elem_of_In, in_map_iff. intros ([i y] & <- & Hin).
  apply filter_In in Hin as [Hin _]. unfold enumerate in Hin.
  by apply in_combine_r in Hin.
Qed.

(** X18. The AMR string that [get_amr_string] returns is a single line
    without two spaces in a row: it holds no newline character, and no
    space is followed by another space. *)
Theorem get_amr_string_one_line (no_tokens : bool) (sent : str) :
  (nl ∉ get_amr_string no_tokens sent)
  /\ has_infix [" "; " "] (get_amr_string no_tokens sent) = false.
Proof.
  unfold get_amr_string. split.
  - intros H. apply collapse_spaces_spec, strip_elem in H.
    apply list_elem_of_In, in_concat in H as (line & Hline & Hnl).
    apply list_elem_of_In, enumerate_filter_elem in Hline.
    pose proof (split_no_sep nl sent) as Hall.
    rewrite Forall_forall in Hall. apply (Hall line Hline).
    by apply list_elem_of_In.
  - apply collapse_spaces_spec.
Qed.

(** ** [load] *)

Lemma load_loop_success
  (readlines : str -> res (gmap (list ascii) (list ascii)))
  (decode_tree decode : str -> res graph) (no_tokens : bool) :
  forall sents amrs0 by_id0 amrs by_id,
    for_each (load_step readlines decode_tree decode no_tokens) sents
      (amrs0, by_id0) = Ret (amrs, by_id) ->
    map Ret amrs
    = map Ret amrs0
      ++ map decode (List.filter (has_amr_string no_tokens) sents)
    /\ Forall (fun sent =>
                 check_brackets_and_raise_exception_if_fail
                   (get_amr_string no_tokens sent) = Ret tt)
         (List.filter (has_amr_string no_tokens) sents)
    /\ size by_id
       <= size by_id0
          + length (List.filter (has_amr_string no_tokens) sents).
Proof.
  induction sents as [|sent sents IH]; intros amrs0 by_id0 amrs by_id.
  - simpl. intros [= -> ->]. rewrite app_nil_r. split; [done|].
    split; [constructor|lia].
  - cbn [for_each List.filter].
    assert (has_amr_string no_tokens sent
            = negb (bool_decide (get_amr_string no_tokens sent = [])))
      as -> by done.
    unfold load_step at 1.
    destruct (get_metadata readlines no_tokens sent) as [metadata|e];
      [|discriminate]. cbn [bind].
    destruct (bool_decide (get_amr_string no_tokens sent = [])).
    { cbn [bind negb]. apply IH. }
    cbn [negb].
    destruct (check_brackets_and_raise_exception_if_fail
                (get_amr_string no_tokens sent)) as [[]|e] eqn:Ec;
      [|discriminate]. cbn [bind].
    destruct (get_reentrant_triples decode_tree
                (get_amr_string no_tokens sent)) as [reentrant|e];
      [|discriminate]. cbn [bind].
    destruct (metadata_id metadata) as [id|e]; [|discriminate]. cbn [bind].
    destruct (decode sent) as [amr|e] eqn:Ed; [|discriminate]. cbn [bind].
    intros H. apply IH in H as (H1 & H2 & H3).
    rewrite H1, map_app. cbn [map length]. rewrite <- app_assoc, Ed.
    split; [done|]. split; [by constructor|].
    pose proof (map_size_insert id reentrant by_id0) as Hs.
    destruct (by_id0 !! id); simpl in Hs; lia.
Qed.

(** X19. When [load] returns, it has decoded, in order, exactly the blocks
    of the file from which [get_amr_string] gets a non-empty string, each
    of them as a whole block; the AMR string of each of these blocks
    starts with ['('] and ends with [')']; and the dictionary of reentrant
    triples has at most as many entries as there are graphs, fewer when
    two blocks share an id. *)
Theorem load_success
  (readlines : str -> res (gmap (list ascii) (list ascii)))
  (decode_tree decode : str -> res graph) (text : str)
  (amrs : list graph) (by_id : gmap (list ascii) (list triple)) :
  load readlines decode_tree decode text = Ret (amrs, by_id) ->
  map Ret amrs
  = map decode
      (List.filter (has_amr_string (load_no_tokens text)) (load_sents text))
  /\ Forall (fun sent =>
               startswith ["("] (get_amr_string (load_no_tokens text) sent)
               && endswith [")"] (get_amr_string (load_no_tokens text) sent)
               = true)
       (List.filter (has_amr_string (load_no_tokens text)) (load_sents text))
  /\ size by_id <= length amrs.
Proof.
  unfold load. fold (load_sents text). fold (load_no_tokens text).
  intros H. apply load_loop_success in H as (H1 & H2 & H3).
  split; [done|]. split.
  - eapply Forall_impl; [exact H2|]. intros sent.
    unfold check_brackets_and_raise_exception_if_fail.
    destruct (startswith ["("] _), (endswith [")"] _); simpl; done.
  - rewrite map_size_empty in H3.
    apply (f_equal length) in H1. cbn [map app] in H1.
    rewrite !length_map in H1. lia.
Qed.

Lemma load_success_witness :
  map Ret [ {| triples := [] |} ]
  = map (decode_as [])
      (List.filter
         (has_amr_string (load_no_tokens (py "# ::id 2" ++ nl :: py "(b / c)")))
         (load_sents (py "# ::id 2" ++ nl :: py "(b / c)")))
  /\ Forall (fun sent =>
               startswith ["("]
                 (get_amr_string
                    (load_no_tokens (py "# ::id 2" ++ nl :: py "(b / c)")) sent)
               && endswith [")"]
                    (get_amr_string
                       (load_no_tokens (py "# ::id 2" ++ nl :: py "(b / c)"))
                       sent)
               = true)
       (List.filter
          (has_amr_string (load_no_tokens (py "# ::id 2" ++ nl :: py "(b / c)")))
          (load_sents (py "# ::id 2" ++ nl :: py "(b / c)")))
  /\ size ({[ py "1" := [] ]} : gmap (list ascii) (list triple)) <= 1.
Proof.
  apply (load_success (readlines_id (py "1")) (decode_as []) (decode_as [])
           (py "# ::id 2" ++ nl :: py "(b / c)")
           [ {| triples := [] |} ] {[ py "1" := [] ]}).
  vm_compute. reflexivity.
Defined.

(** * Properties of [get_unseen_names_and_dates.py] *)

(** ** The order of [sort()] *)

Lemma ord_inj (x y : ascii) : ord x = ord y -> x = y.
Proof.
  unfold ord. intros H. rewrite <- (ascii_N_embedding x), H.
  apply ascii_N_embedding.
Qed.

Lemma str_le_total : forall a b, str_le a b = true \/ str_le b a = true.
Proof.
  induction a as [|x a IH]; intros [|y b]; simpl; auto.
  destruct (N.ltb_spec (ord x) (ord y)), (N.ltb_spec (ord y) (ord x));
    auto; lia.
Qed.

Lemma str_le_antisym : forall a b,
  str_le a b = true -> str_le b a = true -> a = b.
Proof.
  induction a as [|x a IH]; intros [|y b]; simpl; try done.
  destruct (N.ltb_spec (ord x) (ord y)), (N.ltb_spec (ord y) (ord x));
    try done; try lia.
  intros Hab Hba. assert (ord x = ord y) as ->%ord_inj by lia.
  f_equal. by apply IH.
Qed.

Lemma str_le_trans : forall a b c,
  str_le a b = true -> str_le b c = true -> str_le a c = true.
Proof.
  induction a as [|x a IH]; intros [|y b] [|z c]; simpl; try done.
  destruct (N.ltb_spec (ord x) (ord y)), (N.ltb_spec (ord y) (ord x)),
    (N.ltb_spec (ord y) (ord z)), (N.ltb_spec (ord z) (ord y)),
    (N.ltb_spec (ord x) (ord z)), (N.ltb_spec (ord z) (ord x));
    try done; try lia. apply IH.
Qed.

#[global] Instance pair_leR_total : Total pair_leR.
Proof.
  intros [a1 b1] [a2 b2]. unfold pair_leR, pair_le. simpl.
  destruct (decide (a1 = a2)) as [->|Hne].
  - rewrite !bool_decide_eq_true_2 by done. apply str_le_total.
  - rewrite !bool_decide_eq_false_2 by congruence. apply str_le_total.
Qed.

#[global] Instance pair_leR_antisym : AntiSymm (=) pair_leR.
Proof.
  intros [a1 b1] [a2 b2]. unfold pair_leR, pair_le. simpl.
  destruct (decide (a1 = a2)) as [->|Hne].
  - rewrite !bool_decide_eq_true_2 by done. intros H1 H2.
    f_equal. by apply str_le_antisym.
  - rewrite !bool_decide_eq_false_2 by congruence. intros H1 H2.
    destruct Hne. by apply str_le_antisym.
Qed.

#[global] Instance pair_leR_trans : Transitive pair_leR.
Proof.
  intros [a1 b1] [a2 b2] [a3 b3]. unfold pair_leR, pair_le. simpl.
  destruct (decide (a1 = a2)) as [->|H12].
  - rewrite (bool_decide_eq_true_2 (a2 = a2)) by done.
    destruct (bool_decide (a2 = a3)); [apply str_le_trans|done].
  - rewrite (bool_decide_eq_false_2 (a1 = a2)) by done.
    destruct (decide (a2 = a3)) as [->|H23].
    + rewrite (bool_decide_eq_true_2 (a3 = a3)) by done.
      by rewrite (bool_decide_eq_false_2 (a1 = a3)) by done.
    + rewrite (bool_decide_eq_false_2 (a2 = a3)) by done. intros H1 H2.
      destruct (decide (a1 = a3)) as [->|H13].
      * destruct H12. by apply str_le_antisym.
      * rewrite (bool_decide_eq_false_2 (a1 = a3)) by done.
        by apply (str_le_trans a1 a2 a3).
Qed.

(** What [sort()] returns is the one sorted arrangement of the list. *)
Lemma sort_pairs_unique (l sorted : list (str * str)) :
  Sorted pair_leR sorted -> sorted ≡ₚ l -> sort_pairs l = sorted.
Proof.
  intros Hs Hp. unfold sort_pairs.
  apply (Sorted_unique pair_leR); [apply Sorted_merge_sort, _|done|].
  by rewrite merge_sort_Permutation, Hp.
Qed.

Lemma sort_pairs_Permutation (l1 l2 : list (str * str)) :
  l1 ≡ₚ l2 -> sort_pairs l1 = sort_pairs l2.
Proof.
  intros Hp. apply sort_pairs_unique.
  - apply Sorted_merge_sort, _.
  - unfold sort_pairs. by rewrite merge_sort_Permutation.
Qed.

Lemma sorted_attributes_Permutation
  (attributes1 attributes2 : graph -> list ascii -> list triple)
  (g : graph) (instance : triple) :
  attributes1 g (fst (fst instance)) ≡ₚ attributes2 g (fst (fst instance)) ->
  sorted_attributes attributes1 g instance
  = sorted_attributes attributes2 g instance.
Proof.
  intros Hp. unfold sorted_attributes. apply sort_pairs_Permutation.
  by apply Permutation_map.
Qed.

(** X20. The name string and the date string of an instance do not depend
    on the order in which the graph lists the attributes of the node:
    two listings that are permutations of each other give the same
    strings. *)
Theorem name_and_date_strings_order_free
  (attributes1 attributes2 : graph -> list ascii -> list triple)
  (g : graph) (instance : triple) :
  attributes1 g (fst (fst instance)) ≡ₚ attributes2 g (fst (fst instance)) ->
  get_name_string_for_name_instance attributes1 g instance
  = get_name_string_for_name_instance attributes2 g instance
  /\ get_date_string_for_date_instance attributes1 g instance
     = get_date_string_for_date_instance attributes2 g instance.
Proof.
  intros Hp. unfold get_name_string_for_name_instance,
    get_date_string_for_date_instance.
  by rewrite (sorted_attributes_Permutation attributes1 attributes2 g instance Hp).
Qed.

Lemma name_and_date_strings_order_free_witness :
  get_name_string_for_name_instance
    (fun _ _ => [(py "n", py ":op1", py "Capitol"); (py "n", py ":op2", py "Hill")])
    {| triples := [] |} (py "n", py ":instance", py "name")
  = get_name_string_for_name_instance
      (fun _ _ => [(py "n", py ":op2", py "Hill"); (py "n", py ":op1", py "Capitol")])
      {| triples := [] |} (py "n", py ":instance", py "name")
  /\ get_date_string_for_date_instance
       (fun _ _ => [(py "n", py ":op1", py "Capitol"); (py "n", py ":op2", py "Hill")])
       {| triples := [] |} (py "n", py ":instance", py "name")
     = get_date_string_for_date_instance
         (fun _ _ => [(py "n", py ":op2", py "Hill"); (py "n", py ":op1", py "Capitol")])
         {| triples := [] |} (py "n", py ":instance", py "name").
Proof.
  apply (name_and_date_strings_order_free
           (fun _ _ => [(py "n", py ":op1", py "Capitol");
                        (py "n", py ":op2", py "Hill")])
           (fun _ _ => [(py "n", py ":op2", py "Hill");
                        (py "n", py ":op1", py "Capitol")])).
  apply perm_swap.
Defined.

(** X21. The parts of a name are put in the order of their roles as
    strings, not as numbers: of two attributes whose roles differ, the one
    whose role is the smaller string gives the first part, so that the
    part of [:op10] comes before the part of [:op2]. *)
Theorem name_string_two_parts
  (attributes : graph -> list ascii -> list triple)
  (g : graph) (instance : triple) (s1 s2 r1 r2 x y : str) :
  attributes g (fst (fst instance)) = [(s1, r1, x); (s2, r2, y)] ->
  r1 <> r2 -> str_le r2 r1 = true ->
  get_name_string_for_name_instance attributes g instance
  = remove_char dquote (y ++ " " :: x).
Proof.
  intros Ha Hne Hle. unfold get_name_string_for_name_instance,
    sorted_attributes. rewrite Ha. cbn [map fst snd].
  rewrite (sort_pairs_unique _ [(r2, y); (r1, x)]); [done| |apply perm_swap].
  repeat constructor. unfold pair_leR, pair_le. simpl.
  by rewrite bool_decide_eq_false_2 by congruence.
Qed.

Lemma name_string_two_parts_witness :
  get_name_string_for_name_instance
    (fun _ _ => [(py "n", py ":op2", py "second"); (py "n", py ":op10", py "tenth")])
    {| triples := [] |} (py "n", py ":instance", py "name")
  = remove_char dquote (py "tenth" ++ " " :: py "second").
Proof.
  apply (name_string_two_parts
           (fun _ _ => [(py "n", py ":op2", py "second");
                        (py "n", py ":op10", py "tenth")])
           {| triples := [] |} (py "n", py ":instance", py "name")
           (py "n") (py "n") (py ":op2") (py ":op10")
           (py "second") (py "tenth")); done.
Defined.

(** * Further properties of [clean_amr] *)

Lemma lstrip_no_lead (s : str) : no_lead (lstrip s).
Proof.
  induction s as [|c s IH]; simpl; [done|].
  destruct (is_space c) eqn:E; [done|]. exact E.
Qed.

Lemma lstrip_fixed (s : str) : no_lead s -> lstrip s = s.
Proof. destruct s as [|c s]; simpl; [done|]. by intros ->. Qed.

Lemma lstrip_snoc (a : str) (c : ascii) :
  is_space c = false -> lstrip (a ++ [c]) = lstrip a ++ [c].
Proof.
  intros Hc. induction a as [|x a IH]; simpl; [by rewrite Hc|].
  by destruct (is_space x).
Qed.

Lemma rstrip_no_lead (s : str) : no_lead s -> no_lead (rstrip s).
Proof.
  destruct s as [|c s]; [done|]. simpl. intros Hc. unfold rstrip. simpl.
  rewrite lstrip_snoc by done. rewrite rev_app_distr. simpl. exact Hc.
Qed.

Lemma strip_fixed (s : str) : no_lead s -> no_lead (rev s) -> strip s = s.
Proof.
  intros H1 H2. unfold strip, rstrip.
  rewrite (lstrip_fixed s H1), (lstrip_fixed (rev s) H2). apply rev_involutive.
Qed.

Lemma strip_no_lead (s : str) : no_lead (strip s) /\ no_lead (rev (strip s)).
Proof.
  split.
  - apply rstrip_no_lead, lstrip_no_lead.
  - unfold strip, rstrip. rewrite rev_involutive. apply lstrip_no_lead.
Qed.

Lemma replace_no_lead (s : str) : no_lead s -> no_lead (replace " " "_" s).
Proof.
  destruct s as [|c s]; [done|]. simpl. intros Hc.
  destruct (Ascii.eqb c " ") eqn:E; [|done].
  apply Ascii.eqb_eq in E. by subst c.
Qed.

Lemma replace_rev a b (s : str) : rev (replace a b s) = replace a b (rev s).
Proof. unfold replace. by rewrite map_rev. Qed.

Lemma replace_twice (s : str) :
  replace " " "_" (replace " " "_" s) = replace " " "_" s.
Proof.
  unfold replace. rewrite map_map. apply map_ext. intros c.
  by destruct (Ascii.eqb c " ") eqn:E; [|rewrite E].
Qed.

(** The label that the fix writes is left as it is by another [strip()]
    and another [replace(" ", "_")]. *)
Lemma fixed_label_stable (label : str) :
  replace " " "_" (strip (replace " " "_" (strip label)))
  = replace " " "_" (strip label).
Proof.
  destruct (strip_no_lead label) as [H1 H2].
  rewrite (strip_fixed (replace " " "_" (strip label))).
  - apply replace_twice.
  - by apply replace_no_lead.
  - rewrite replace_rev. by apply replace_no_lead.
Qed.

Lemma split_once_spec sep : forall s : str,
  contains sep s = true ->
  exists pre post,
    s = pre ++ sep :: post /\ contains sep pre = false
    /\ split_once sep s = (pre, post).
Proof.
  unfold contains. induction s as [|c s IH]; simpl; [done|].
  destruct (Ascii.eqb sep c) eqn:E.
  - apply Ascii.eqb_eq in E. subst c. intros _. exists [], s.
    by rewrite Ascii.eqb_refl.
  - simpl. intros Hs. destruct (IH Hs) as (pre & post & -> & Hpre & Hsplit).
    exists (c :: pre), post. simpl. rewrite E, Hpre.
    rewrite Ascii.eqb_sym, E, Hsplit. done.
Qed.

(** X22. The node name fix of lines 32-35 is idempotent: on a line that
    it has already rewritten it changes nothing. *)
Theorem fix_node_name_idempotent (line : str) :
  fix_node_name (fix_node_name line) = fix_node_name line.
Proof.
  destruct (startswith ["("] line && contains "/" line) eqn:Hc.
  2: { assert (fix_node_name line = line) as E
         by (unfold fix_node_name; by rewrite Hc).
       by rewrite !E. }
  pose proof Hc as Hc'. apply andb_true_iff in Hc' as [Hs Hsl].
  destruct (split_once_spec "/" line Hsl) as (pre & label & Hline & Hpre & Hsp).
  assert (fix_node_name line = pre ++ "/" :: replace " " "_" (strip label))
    as E by (unfold fix_node_name; by rewrite Hc, Hsp).
  rewrite E. unfold fix_node_name. rewrite contains_app_hit.
  assert (startswith ["("] (pre ++ "/" :: replace " " "_" (strip label))
          = true) as ->.
  { subst line. destruct pre as [|c pre]; [done|]. exact Hs. }
  cbn [andb]. rewrite split_once_app by done. cbv beta iota zeta.
  by rewrite fixed_label_stable.
Qed.

(** X23. On a text that has only blank lines, the empty text included,
    [clean_amr] returns the empty text. *)
Theorem clean_amr_blank (amr_str : str) :
  forallb (fun line => bool_decide (strip line = [])) (split nl amr_str) = true ->
  clean_amr amr_str = [].
Proof.
  intros Hall. unfold clean_amr.
  assert (filter (fun line => strip line <> []) (split nl amr_str) = []) as ->.
  { induction (split nl amr_str) as [|line lines IH]; [done|].
    simpl in Hall. apply andb_true_iff in Hall as [Hl Hall].
    apply bool_decide_eq_true in Hl. rewrite filter_cons_False by auto.
    by apply IH. }
  done.
Qed.

Lemma clean_amr_blank_witness :
  clean_amr (py "  " ++ nl :: py " ") = [].
Proof. apply clean_amr_blank. reflexivity. Defined.

(** X24. On a text of a single line, the two bracket passes of lines
    45-63 return the text unchanged exactly when it is balanced. *)
Theorem bracket_balancer_fixed_one_line (s : str) :
  contains nl s = false -> (bracket_balancer s = s <-> balanced s).
Proof.
  intros Hnl. apply contains_false in Hnl. split.
  - intros H. rewrite <- H. apply scrub_balanced.
  - intros Hb. unfold bracket_balancer.
    rewrite (insert_closers_fixed_one_line s Hb Hnl). by apply scrub_fixed.
Qed.

Lemma bracket_balancer_fixed_one_line_witness :
  contains nl (py "(a / b)") = false
  /\ (bracket_balancer (py "(a / b)") = py "(a / b)"
      <-> balanced (py "(a / b)")).
Proof.
  split; [reflexivity|]. apply bracket_balancer_fixed_one_line. reflexivity.
Defined.
